(** * The hunk chunker of the dataset extraction scripts

    A shallow embedding of the diff-hunk-to-editable-region chunking code of
    [extract_dataset.py] (the copy in [local_extract.py] is textually the
    same): [parse_patch_hunks], [merge_close_hunks] and
    [add_editable_region_markers], followed by the properties of the three
    stages; then the code around them: the loop [add_markers_to_dataset],
    the file names ([is_text_file], the file extension), the repository
    list ([load_repositories]) and the two extractors ([filter_commits],
    [extract_file_level_data], [process_repository_with_pydriller]).

    Python integers are unbounded and are modelled by [Z]; a hunk is the
    tuple [(old_start, end_line)]; Python lists are Rocq lists.  [int]
    raises on a string of more than 4300 digits: the module [Fallible] has
    the parser and the chunker with that exception, and a call that returns
    returns what the definitions without it give. *)

From Stdlib Require Import String Ascii.
From Stdlib Require Import ZArith List Lia Bool Sorted Permutation.
Import ListNotations.
Open Scope Z_scope.

Set Warnings "-comment-terminator-in-string".

(** ** Data model *)

(** A hunk (and a merged region) is the pair [(start, end)] that the source
    builds with [hunks.append((old_start, end_line))]. *)
Definition hunk : Type := (Z * Z)%type.

Definition h_start (h : hunk) : Z := fst h.
Definition h_end (h : hunk) : Z := snd h.

(** ** Python strings

    Text is modelled by [string], a sequence of 8-bit characters; [\d] is
    then one of the ten characters '0' to '9' (the decimal digits of other
    scripts, which Python's [\d] and [int] also accept on [str], lie outside
    the model). *)

Definition newline : ascii := "010"%char.

(** [s.split('\n')]: the pieces between the newlines; never the empty
    list. *)
Fixpoint split_lines (s : string) : list string :=
  match s with
  | EmptyString => [EmptyString]
  | String c r =>
      if Ascii.eqb c newline then EmptyString :: split_lines r
      else match split_lines r with
           | [] => [String c EmptyString]
           | l :: ls => String c l :: ls
           end
  end.

(** ['\n'.join(lines)] *)
Definition join_lines (lines : list string) : string :=
  String.concat (String newline EmptyString) lines.

(** [line.startswith(p)] *)
Definition startswith (line p : string) : bool := String.prefix p line.

(** The truth value of a value that is [None] or a string: [None] and the
    empty string are false. *)
Definition truthy (s : option string) : bool :=
  match s with
  | None => false
  | Some EmptyString => false
  | Some (String _ _) => true
  end.

Definition is_digit (c : ascii) : bool :=
  let n := nat_of_ascii c in (48 <=? n)%nat && (n <=? 57)%nat.

Fixpoint all_digits (s : string) : bool :=
  match s with
  | EmptyString => true
  | String c r => is_digit c && all_digits r
  end.

Definition digit_value (c : ascii) : Z := Z.of_nat (nat_of_ascii c) - 48.

Fixpoint int_from (acc : Z) (s : string) : Z :=
  match s with
  | EmptyString => acc
  | String c r => int_from (acc * 10 + digit_value c) r
  end.

(** The number that a string of decimal digits denotes: what [int(s)]
    returns when it returns.  The result is unbounded, as in Python. *)
Definition int_of (s : string) : Z := int_from 0 s.

(** ** Exceptions

    A call returns a value or raises an exception.  The exception of the
    chunker's code is the [ValueError] of [int]: the interpreter converts a
    string of at most [int_max_str_digits] digits, 4300 unless the limit is
    changed, which the scripts do not do, and [int] raises on a longer
    one. *)
Inductive exception : Type := ValueError.

Inductive outcome (A : Type) : Type :=
| Returns (a : A)
| Raises (e : exception).

Arguments Returns {A} a.
Arguments Raises {A} e.

Definition bind {A B} (x : outcome A) (f : A -> outcome B) : outcome B :=
  match x with
  | Returns a => f a
  | Raises e => Raises e
  end.

Notation "'let*' x ':=' e 'in' k" := (bind e (fun x => k))
  (at level 10, x name, e at level 100, k at level 200).

(** A [for] loop over [l] that threads the state [s] through its body: an
    exception raised in the body ends the loop. *)
Fixpoint for_each {A S} (body : S -> A -> outcome S) (l : list A) (s : S)
  : outcome S :=
  match l with
  | [] => Returns s
  | x :: r => let* s' := body s x in for_each body r s'
  end.

Definition int_max_str_digits : Z := 4300.

(** [l[a:b]], with Python's reading of negative and of too large bounds. *)
Definition slice_bound (len i : Z) : Z :=
  if i <? 0 then Z.max 0 (i + len) else Z.min i len.

Definition py_slice {A} (l : list A) (a b : Z) : list A :=
  let len := Z.of_nat (length l) in
  let a' := slice_bound len a in
  let b' := slice_bound len b in
  firstn (Z.to_nat (b' - a')) (skipn (Z.to_nat a') l).

(** [enumerate(l, start=i)] *)
Fixpoint enumerate {A} (i : Z) (l : list A) : list (Z * A) :=
  match l with
  | [] => []
  | x :: r => (i, x) :: enumerate (i + 1) r
  end.

(** ** Regular expressions

    The backtracking matcher of [re], for the pieces the pattern of the hunk
    header is made of: a literal character, an optional literal character
    [c?], and the two capturing groups "(\d+)" and "(\d*)".  Quantifiers are
    greedy: the longest repetition is tried first and shorter ones only
    after the rest of the pattern has failed. *)

Inductive piece : Type :=
| Lit (c : ascii)
| OptLit (c : ascii)
| Digits1
| Digits0.

(** "\d*" followed by the continuation [k]; returns the text of the
    repetition and what [k] captured. *)
Fixpoint greedy_digits (k : string -> option (list string)) (s : string)
  : option (string * list string) :=
  let stop := option_map (pair EmptyString) (k s) in
  match s with
  | String c r =>
      if is_digit c then
        match greedy_digits k r with
        | Some (g, gs) => Some (String c g, gs)
        | None => stop
        end
      else stop
  | EmptyString => stop
  end.

(** The pattern [p] matched at the start of [s]: the texts of the groups, in
    the order of their opening brackets. *)
Fixpoint match_here (p : list piece) (s : string) {struct p}
  : option (list string) :=
  match p with
  | [] => Some []
  | Lit c :: p' =>
      match s with
      | String c' r => if Ascii.eqb c' c then match_here p' r else None
      | EmptyString => None
      end
  | OptLit c :: p' =>
      match s with
      | String c' r =>
          if Ascii.eqb c' c then
            match match_here p' r with
            | Some gs => Some gs
            | None => match_here p' s
            end
          else match_here p' s
      | EmptyString => match_here p' s
      end
  | Digits1 :: p' =>
      match s with
      | String c r =>
          if is_digit c then
            match greedy_digits (match_here p') r with
            | Some (g, gs) => Some (String c g :: gs)
            | None => None
            end
          else None
      | EmptyString => None
      end
  | Digits0 :: p' =>
      match greedy_digits (match_here p') s with
      | Some (g, gs) => Some (g :: gs)
      | None => None
      end
  end.

(** [re.search(p, s)]: the match at the leftmost position that has one. *)
Fixpoint re_search (p : list piece) (s : string) : option (list string) :=
  match match_here p s with
  | Some gs => Some gs
  | None =>
      match s with
      | String _ r => re_search p r
      | EmptyString => None
      end
  end.

(** [match.group(n)], for [n >= 1]. *)
Definition group (m : list string) (n : nat) : string :=
  nth (pred n) m EmptyString.

Definition lits (s : string) : list piece :=
  map Lit (list_ascii_of_string s).

(** The pattern "@@ -(\d+),?(\d*) \+(\d+),?(\d*) @@". *)
Definition hunk_header : list piece :=
  lits "@@ -" ++ [Digits1; OptLit ","; Digits0] ++
  lits " +" ++ [Digits1; OptLit ","; Digits0] ++ lits " @@".

(** ** Hunk parser *)

(** The body of the loop over the lines of the patch. *)
Definition parse_line (hunks : list hunk) (line : string) : list hunk :=
  if startswith line "@@" then
    match re_search hunk_header line with
    | Some m =>
        let old_start := int_of (group m 1) in
        let old_count :=
          match group m 2 with
          | EmptyString => 1
          | String _ _ as g => int_of g
          end in
        let end_line := old_start + old_count in
        hunks ++ [(old_start, end_line)]
    | None => hunks
    end
  else hunks.

Definition parse_patch_hunks (patch : option string) : list hunk :=
  match patch with
  | None => []
  | Some EmptyString => []
  | Some (String _ _ as text) => fold_left parse_line (split_lines text) []
  end.

(** ** Hunk merger *)

(** [sorted(hunks, key=lambda x: x[0])]: Python's sort is stable, and the
    stable sorted arrangement of a list is unique; it is computed here by
    insertion, an element going before the first element whose key is not
    smaller. *)
Fixpoint insert_by_start (h : hunk) (l : list hunk) : list hunk :=
  match l with
  | [] => [h]
  | x :: r =>
      if h_start h <=? h_start x then h :: l else x :: insert_by_start h r
  end.

Definition sorted_by_key (hunks : list hunk) : list hunk :=
  fold_right insert_by_start [] hunks.

(** One iteration of the loop [for current in sorted_hunks[1:]], on the list
    [merged]: [merged[-1]] is read, then either overwritten or followed by
    [current].  The list is never empty inside the loop (it starts as
    [[sorted_hunks[0]]] and never shrinks), see [merge_loop_nonempty]. *)
Definition merge_step (max_gap : Z) (merged : list hunk) (current : hunk)
  : list hunk :=
  let last := List.last merged current in
  if h_start current - h_end last <=? max_gap
  then removelast merged ++ [(h_start last, Z.max (h_end last) (h_end current))]
  else merged ++ [current].

Definition merge_close_hunks (hunks : list hunk) (max_gap : Z) : list hunk :=
  match hunks with
  | [] => []
  | _ :: _ =>
      match sorted_by_key hunks with
      | [] => []
      | first :: rest => fold_left (merge_step max_gap) rest [first]
      end
  end.

(** The same scan with the open region held apart from the closed ones; it is
    shown equal to the loop above in [merge_loop_from] and used in proofs. *)
Fixpoint merge_from (max_gap : Z) (cur : hunk) (rest : list hunk) : list hunk :=
  match rest with
  | [] => [cur]
  | c :: r =>
      if h_start c - h_end cur <=? max_gap
      then merge_from max_gap (h_start cur, Z.max (h_end cur) (h_end c)) r
      else cur :: merge_from max_gap c r
  end.

(** ** Region materializer *)

(** The keys of a file record that the chunker reads or writes.  The other
    keys (commit and file metadata) are carried along unchanged and are left
    out.  A key that holds [None] and a key that is not there yet are both
    [None] here: the five keys that are added by the chunker are set in every
    record it returns. *)
Record file_record : Type := {
  patch : option string;
  before_content : option string;
  after_content : option string;
  editable_region_start : option Z;
  editable_region_end : option Z;
  chunk_id : option Z;
  total_chunks_in_file : option Z;
  is_multi_chunk_file : option bool;
  model_input_text : option string;
  model_target_text : option string
}.

Definition editable_region_start_marker : string := "<|editable_region_start|>".
Definition editable_region_end_marker : string := "<|editable_region_end|>".

(** The record of the two early returns: the record itself with the five
    chunk keys set. *)
Definition not_chunkable (r : file_record) : file_record :=
  {| patch := patch r;
     before_content := before_content r;
     after_content := after_content r;
     editable_region_start := editable_region_start r;
     editable_region_end := editable_region_end r;
     chunk_id := Some 0;
     total_chunks_in_file := Some 1;
     is_multi_chunk_file := Some false;
     model_input_text := None;
     model_target_text := None |}.

(** The body of the loop over [enumerate(before_lines, start=1)]. *)
Definition mark_step (region_start region_end : Z)
    (marked_lines : list string) (il : Z * string) : list string :=
  let '(i, line) := il in
  let marked1 :=
    if i =? region_start
    then marked_lines ++ [editable_region_start_marker] else marked_lines in
  let marked2 := marked1 ++ [line] in
  if i =? region_end
  then marked2 ++ [editable_region_end_marker] else marked2.

Definition mark_lines (before_lines : list string) (region_start region_end : Z)
  : list string :=
  fold_left (mark_step region_start region_end) (enumerate 1 before_lines) [].

(** The body of the loop over [enumerate(merged_hunks)]: the chunk record of
    one merged region. *)
Definition make_chunk (r : file_record) (context_before context_after : Z)
    (before_lines after_lines : list string) (total : Z)
    (chunk_idx : Z) (h : hunk) : file_record :=
  let '(hunk_start, hunk_end) := h in
  let region_start := Z.max 1 (hunk_start - context_before) in
  let region_end :=
    Z.min (Z.of_nat (length before_lines)) (hunk_end + context_after) in
  let model_input_text' :=
    join_lines (mark_lines before_lines region_start region_end) in
  let model_target_text' :=
    if (region_start <=? Z.of_nat (length after_lines))
       && (region_end <=? Z.of_nat (length after_lines))
    then Some (join_lines (py_slice after_lines (region_start - 1) region_end))
    else None in
  {| patch := patch r;
     before_content := before_content r;
     after_content := after_content r;
     editable_region_start := Some region_start;
     editable_region_end := Some region_end;
     chunk_id := Some chunk_idx;
     total_chunks_in_file := Some total;
     is_multi_chunk_file := Some (1 <? total);
     model_input_text := Some model_input_text';
     model_target_text := model_target_text' |}.

(** [before_content.split('\n')], and
    [after_content.split('\n') if after_content else before_lines]. *)
Definition lines_of (content : option string) : list string :=
  match content with
  | Some text => split_lines text
  | None => []
  end.

Definition after_lines_of (r : file_record) : list string :=
  if truthy (after_content r) then lines_of (after_content r)
  else lines_of (before_content r).

Definition add_editable_region_markers (r : file_record)
    (context_before context_after max_gap : Z) : list file_record :=
  if negb (truthy (patch r)) || negb (truthy (before_content r))
  then [not_chunkable r]
  else
    let hunks := parse_patch_hunks (patch r) in
    match hunks with
    | [] => [not_chunkable r]
    | _ :: _ =>
        let merged_hunks := merge_close_hunks hunks max_gap in
        let before_lines := lines_of (before_content r) in
        let after_lines := after_lines_of r in
        fold_left
          (fun chunk_records ih =>
             chunk_records ++
             [make_chunk r context_before context_after
                         before_lines after_lines
                         (Z.of_nat (length merged_hunks)) (fst ih) (snd ih)])
          (enumerate 0 merged_hunks) []
    end.

(** ** The parser and the chunker with their exception

    The definitions above give what [parse_patch_hunks] and
    [add_editable_region_markers] return.  The definitions of this module
    are the same code with the [ValueError] of [int]: a call returns, and
    then it returns what the definitions above give, or it raises. *)
Module Fallible.

(** [int(s)] for a string of decimal digits. *)
Definition int (s : string) : outcome Z :=
  if int_max_str_digits <? Z.of_nat (String.length s)
  then Raises ValueError
  else Returns (int_of s).

(** The body of the loop over the lines of the patch. *)
Definition parse_line (hunks : list hunk) (line : string)
  : outcome (list hunk) :=
  if startswith line "@@" then
    match re_search hunk_header line with
    | Some m =>
        let* old_start := int (group m 1) in
        let* old_count :=
          match group m 2 with
          | EmptyString => Returns 1
          | String a g => int (String a g)
          end in
        let end_line := old_start + old_count in
        Returns (hunks ++ [(old_start, end_line)])
    | None => Returns hunks
    end
  else Returns hunks.

Definition parse_patch_hunks (patch : option string) : outcome (list hunk) :=
  match patch with
  | None => Returns []
  | Some EmptyString => Returns []
  | Some (String _ _ as text) => for_each parse_line (split_lines text) []
  end.

Definition add_editable_region_markers (r : file_record)
    (context_before context_after max_gap : Z) : outcome (list file_record) :=
  if negb (truthy (patch r)) || negb (truthy (before_content r))
  then Returns [not_chunkable r]
  else
    let* hunks := parse_patch_hunks (patch r) in
    match hunks with
    | [] => Returns [not_chunkable r]
    | _ :: _ =>
        let merged_hunks := merge_close_hunks hunks max_gap in
        let before_lines := lines_of (before_content r) in
        let after_lines := after_lines_of r in
        Returns
          (fold_left
             (fun chunk_records ih =>
                chunk_records ++
                [make_chunk r context_before context_after
                            before_lines after_lines
                            (Z.of_nat (length merged_hunks)) (fst ih) (snd ih)])
             (enumerate 0 merged_hunks) [])
    end.

End Fallible.

(** *** Vocabulary of the parser's properties *)

(** The longest run of digits at the start of [s], and what follows it. *)
Fixpoint span_digits (s : string) : string * string :=
  match s with
  | String c r =>
      if is_digit c
      then let (g, t) := span_digits r in (String c g, t)
      else (EmptyString, s)
  | EmptyString => (EmptyString, EmptyString)
  end.

Definition starts_with_digit (s : string) : bool :=
  match s with
  | String c _ => is_digit c
  | EmptyString => false
  end.

Definition starts_with_comma (s : string) : bool :=
  match s with
  | String c _ => Ascii.eqb c ","
  | EmptyString => false
  end.

(** [s] without the comma it may start with. *)
Definition after_comma (s : string) : string :=
  match s with
  | String c r => if Ascii.eqb c "," then r else s
  | EmptyString => s
  end.

Fixpoint strip_prefix (p s : string) : option string :=
  match p with
  | EmptyString => Some s
  | String c p' =>
      match s with
      | String c' r => if Ascii.eqb c' c then strip_prefix p' r else None
      | EmptyString => None
      end
  end.

(** What the two groups of "(\d+),?(\d*)" hold at the start of [s], and
    what follows them, read off without backtracking. *)
Definition range_fields (s : string) : option (string * string * string) :=
  let (g1, t1) := span_digits s in
  match g1 with
  | EmptyString => None
  | String _ _ =>
      let (g2, t2) := span_digits (after_comma t1) in Some (g1, g2, t2)
  end.

(** The four groups of the header pattern at the start of [s], read off
    without backtracking; equal to the matcher's answer by
    [match_here_hunk_header]. *)
Definition header_fields (s : string) : option (list string) :=
  match strip_prefix "@@ -" s with
  | None => None
  | Some s1 =>
      match range_fields s1 with
      | None => None
      | Some (g1, g2, s2) =>
          match strip_prefix " +" s2 with
          | None => None
          | Some s3 =>
              match range_fields s3 with
              | None => None
              | Some (g3, g4, s4) =>
                  match strip_prefix " @@" s4 with
                  | None => None
                  | Some _ => Some [g1; g2; g3; g4]
                  end
              end
          end
      end
  end.

(** A continuation that fails after a run of digits fails as well when it is
    entered anywhere inside the run. *)
Definition absorbs (k : string -> option (list string)) : Prop :=
  forall s, k (snd (span_digits s)) = None -> k s = None.

(** The suffixes of [s], the longest first: the places where a search can
    look for a match. *)
Fixpoint suffixes (s : string) : list string :=
  s :: match s with
       | String _ r => suffixes r
       | EmptyString => []
       end.

(** A decimal number: digits, at least one. *)
Definition number (d : string) : Prop :=
  d <> EmptyString /\ all_digits d = true.

(** The range syntax of a hunk header, [start] or [start,count], with the
    start and the count it denotes. *)
Inductive range_text : string -> string -> option string -> Prop :=
| range_start s :
    number s -> range_text s s None
| range_start_count s c :
    number s -> number c -> range_text (s ++ "," ++ c)%string s (Some c).

(** The ranges the pattern accepts: as above, and [start,] with the comma
    but no count.  The count is the empty string when there is none. *)
Inductive loose_range_text : string -> string -> string -> Prop :=
| loose_start s :
    number s -> loose_range_text s s EmptyString
| loose_start_comma s c :
    number s -> all_digits c = true ->
    loose_range_text (s ++ "," ++ c)%string s c.

(** [@@ -old +new @@] *)
Definition header_text (old new : string) : string :=
  ("@@ -" ++ old ++ " +" ++ new ++ " @@")%string.

(** [t] starts with a hunk header in the range syntax, whose old start is
    [s] and whose old count is [c]. *)
Definition strict_header_at (t s : string) (c : option string) : Prop :=
  exists old new s' c' post,
    range_text old s c /\ range_text new s' c' /\
    t = (header_text old new ++ post)%string.

(** The same for the ranges the pattern accepts. *)
Definition header_at (t s c : string) : Prop :=
  exists old new s' c' post,
    loose_range_text old s c /\ loose_range_text new s' c' /\
    t = (header_text old new ++ post)%string.

(** [line] has a hunk header somewhere in it. *)
Definition has_strict_header (line : string) : Prop :=
  exists pre t s c, line = (pre ++ t)%string /\ strict_header_at t s c.

Definition has_header (line : string) : Prop :=
  exists pre t s c, line = (pre ++ t)%string /\ header_at t s c.

(** [int(c) if c else 1] *)
Definition count_value (c : string) : Z :=
  match c with
  | EmptyString => 1
  | String a r => int_of (String a r)
  end.

(** The hunk of a header with old start [s] and old count [c]. *)
Definition header_hunk (s c : string) : hunk :=
  (int_of s, int_of s + count_value c).

(** A string of digits that [int] converts. *)
Definition convertible (d : string) : bool :=
  Z.of_nat (String.length d) <=? int_max_str_digits.

(** The leftmost hunk header of [line] has old start [s] and old count
    [c]. *)
Definition leftmost_header (line s c : string) : Prop :=
  exists pre t,
    line = (pre ++ t)%string /\ header_at t s c /\
    forall pre' t' s0 c0, line = (pre' ++ t')%string ->
      (String.length pre' < String.length pre)%nat -> ~ header_at t' s0 c0.

(** What a line gives that starts with [@@] and whose leftmost header has
    old start [s] and old count [c]. *)
Definition header_outcome (s c : string) : outcome (list hunk) :=
  if convertible s && convertible c
  then Returns [header_hunk s c]
  else Raises ValueError.

(** The lists that calls return one after the other, put together, or the
    first exception that one of them raises. *)
Fixpoint concat_outcomes {A} (l : list (outcome (list A))) : outcome (list A) :=
  match l with
  | [] => Returns []
  | x :: r =>
      let* a := x in
      let* b := concat_outcomes r in
      Returns (a ++ b)
  end.

(** A number of 4301 digits, a hunk header with it as old start, and the
    record of a file whose patch is that header. *)
Definition long_number : string := string_of_list_ascii (repeat "1"%char 4301).

Definition long_header : string := ("@@ -" ++ long_number ++ " +1 @@")%string.

(** *** Vocabulary of the merger's properties *)

(** Line [l] lies in the half-open range of [h]. *)
Definition covers (h : hunk) (l : Z) : Prop := h_start h <= l < h_end h.

(** Line [l] lies in the range of one of the hunks of [hs]. *)
Definition covered (hs : list hunk) (l : Z) : Prop :=
  exists h, In h hs /\ covers h l.

(** The range of [h] is contained in the range of [r]. *)
Definition within (h r : hunk) : Prop :=
  h_start r <= h_start h /\ h_end h <= h_end r.

Definition overlap (a b : hunk) : Prop := exists l, covers a l /\ covers b l.

Definition start_le (a b : hunk) : Prop := h_start a <= h_start b.

(** A hunk as the data model has it: [end = start + count] with a count that
    is not negative. *)
Definition well_formed (h : hunk) : Prop := h_start h <= h_end h.

(** What separates two consecutive regions of the output. *)
Definition apart (max_gap : Z) (a b : hunk) : Prop :=
  max_gap < h_start b - h_end a.

(** A hunk as the parser gives it. *)
Definition parsed_shape (h : hunk) : Prop :=
  0 <= h_start h /\ h_start h <= h_end h.

(** A region that ends before another starts. *)
Definition ends_before (a b : hunk) : Prop := h_end a < h_start b.

(** *** Vocabulary of the materializer's properties *)

(** The marked lines of the lines numbered from [i] on, by recursion on the
    lines; equal to the loop by [mark_loop]. *)
Fixpoint marked_from (i : Z) (lines : list string) (region_start region_end : Z)
  : list string :=
  match lines with
  | [] => []
  | line :: rest =>
      (if i =? region_start then [editable_region_start_marker] else []) ++
      [line] ++
      (if i =? region_end then [editable_region_end_marker] else []) ++
      marked_from (i + 1) rest region_start region_end
  end.

(** Lines are numbered from 1: the lines before line [a], the lines [a] to
    [b], both included, and the lines after line [b]. *)
Definition lines_before {A} (l : list A) (a : Z) : list A :=
  firstn (Z.to_nat (a - 1)) l.

Definition lines_between {A} (l : list A) (a b : Z) : list A :=
  firstn (Z.to_nat (b - a + 1)) (skipn (Z.to_nat (a - 1)) l).

Definition lines_after {A} (l : list A) (b : Z) : list A :=
  skipn (Z.to_nat b) l.

(** [marker] appears in [text]. *)
Definition occurs (marker text : string) : Prop :=
  exists pre post, text = (pre ++ marker ++ post)%string.

(** The number of lines of a content: of a content that is absent, none. *)
Definition line_count (content : option string) : Z :=
  Z.of_nat (length (lines_of content)).

(** The record is one that the chunker cuts into the chunks of its merged
    regions. *)
Definition chunkable (r : file_record) : bool :=
  truthy (patch r) && truthy (before_content r) &&
  match parse_patch_hunks (patch r) with
  | [] => false
  | _ :: _ => true
  end.

(** A record as [extract_file_level_data] builds it, before the chunker has
    seen it: no region, no chunk keys. *)
Definition file_level_record (patch before_content after_content : option string)
  : file_record :=
  {| patch := patch;
     before_content := before_content;
     after_content := after_content;
     editable_region_start := None;
     editable_region_end := None;
     chunk_id := None;
     total_chunks_in_file := None;
     is_multi_chunk_file := None;
     model_input_text := None;
     model_target_text := None |}.

(** A file of three lines, changed at line 2. *)
Definition changed_file : file_record :=
  file_level_record
    (Some (join_lines ["@@ -2 +2 @@"; "-b"; "+B"]%string))
    (Some (join_lines ["a"; "b"; "c"]%string))
    (Some (join_lines ["a"; "B"; "c"]%string)).

(** A file of one line that the commit removes: there is no content after
    the change. *)
Definition removed_file : file_record :=
  file_level_record
    (Some (join_lines ["@@ -1 +0,0 @@"; "-a"]%string))
    (Some "a"%string)
    None.

(** A file of three lines that the commit leaves empty: the content after
    the change is the empty string. *)
Definition emptied_file : file_record :=
  file_level_record
    (Some (join_lines ["@@ -1,3 +0,0 @@"; "-a"; "-b"; "-c"]%string))
    (Some (join_lines ["a"; "b"; "c"]%string))
    (Some EmptyString).

(** A patch whose hunk lies beyond the end of the content before it. *)
Definition short_file : file_record :=
  file_level_record
    (Some "@@ -10,2 +10,2 @@"%string)
    (Some "a"%string)
    (Some "a"%string).

(** A file whose patch has a number of 4301 digits in its header. *)
Definition long_header_file : file_record :=
  file_level_record (Some long_header) (Some "a"%string) (Some "a"%string).

(** Twenty lines before the change, ten after it, and a hunk at line 9. *)
Definition shrunk_file : file_record :=
  file_level_record
    (Some "@@ -9 +9 @@"%string)
    (Some (join_lines (repeat "x"%string 20)))
    (Some (join_lines (repeat "y"%string 10))).

(** *** Vocabulary of further properties *)

(** Two lists of hunks that differ only in the order of neighbours with the
    same start. *)
Inductive tie_swapped : list hunk -> list hunk -> Prop :=
| tie_nil : tie_swapped [] []
| tie_skip x l l' : tie_swapped l l' -> tie_swapped (x :: l) (x :: l')
| tie_swap a b l :
    h_start a = h_start b -> tie_swapped (a :: b :: l) (b :: a :: l)
| tie_trans l1 l2 l3 :
    tie_swapped l1 l2 -> tie_swapped l2 l3 -> tie_swapped l1 l3.

(** The scan of a sorted list, as [merge_close_hunks] runs it after the
    sort. *)
Definition merge_sorted (max_gap : Z) (sorted_hunks : list hunk) : list hunk :=
  match sorted_hunks with
  | [] => []
  | first :: rest => merge_from max_gap first rest
  end.

(** ** The loop over the records of a dataset *)






(** A line that is one of the two markers. *)
Definition is_marker (line : string) : bool :=
  String.eqb line editable_region_start_marker ||
  String.eqb line editable_region_end_marker.

Fixpoint has_newline (s : string) : bool :=
  match s with
  | EmptyString => false
  | String c r => Ascii.eqb c newline || has_newline r
  end.

(** ** File names and repository lists *)

(** [s.split(sep)] for a separator of one character. *)
Fixpoint split_char (sep : ascii) (s : string) : list string :=
  match s with
  | EmptyString => [EmptyString]
  | String c r =>
      if Ascii.eqb c sep then EmptyString :: split_char sep r
      else match split_char sep r with
           | [] => [String c EmptyString]
           | l :: ls => String c l :: ls
           end
  end.

(** [c in s] for a character [c]. *)
Fixpoint contains_char (c : ascii) (s : string) : bool :=
  match s with
  | EmptyString => false
  | String x r => Ascii.eqb x c || contains_char c r
  end.

(** [file_path.split('.')[-1] if '.' in file_path else ''] *)
Definition file_extension_of (file_path : string) : string :=
  if contains_char "." file_path
  then last (split_char "." file_path) EmptyString
  else EmptyString.

(** [s.endswith(suffix)]: [suffix] is [s] or ends what follows the first
    character of [s]. *)
Fixpoint endswith (s suffix : string) : bool :=
  String.eqb s suffix ||
  match s with
  | String _ r => endswith r suffix
  | EmptyString => false
  end.

(** The set [text_extensions] of [is_text_file], in the order of the
    source; [any] over a set does not depend on the order. *)
Definition text_extensions : list string :=
  [".py"; ".js"; ".ts"; ".jsx"; ".tsx"; ".java"; ".go"; ".rb"; ".rs";
   ".cpp"; ".c"; ".h"; ".hpp"; ".cs"; ".php"; ".swift"; ".kt"; ".scala";
   ".r"; ".R"; ".m"; ".mm"; ".dart"; ".lua"; ".pl"; ".sh"; ".bash";
   ".json"; ".xml"; ".yaml"; ".yml"; ".toml"; ".ini"; ".cfg"; ".conf";
   ".md"; ".txt"; ".html"; ".css"; ".scss"; ".sass"; ".less";
   ".sql"; ".graphql"; ".proto"; ".thrift"]%string.

Definition is_text_file (filename : string) : bool :=
  existsb (endswith filename) text_extensions.

(** The characters that [str.strip()] takes off, among the characters below
    256: tab to carriage return, the four separators 28 to 31, the space,
    the next-line character 133 and the no-break space 160. *)
Definition is_space (c : ascii) : bool :=
  let n := nat_of_ascii c in
  ((9 <=? n) && (n <=? 13) || (28 <=? n) && (n <=? 32) ||
   (n =? 133) || (n =? 160))%nat.

Fixpoint lstrip (s : string) : string :=
  match s with
  | String c r => if is_space c then lstrip r else s
  | EmptyString => EmptyString
  end.

Fixpoint rstrip (s : string) : string :=
  match s with
  | EmptyString => EmptyString
  | String c r =>
      match rstrip r with
      | EmptyString => if is_space c then EmptyString else String c EmptyString
      | String _ _ as r' => String c r'
      end
  end.

(** [s.strip()] *)
Definition strip (s : string) : string := rstrip (lstrip s).

(** [load_repositories]: the file system is the two functions [isfile]
    ([os.path.isfile]) and [file_lines] (the lines that reading the file
    line by line gives, each with its newline). *)
Definition load_repositories (isfile : string -> bool)
    (file_lines : string -> list string) (repos_input : list string)
  : list string :=
  match repos_input with
  | [path] =>
      if isfile path then
        map strip
          (filter (fun line =>
                     truthy (Some (strip line)) && negb (startswith line "#"))
                  (file_lines path))
      else repos_input
  | _ => repos_input
  end.

(** An extension of the set: a dot, then a piece with no dot. *)
Definition dotted (ext : string) : bool :=
  match ext with
  | String c e => Ascii.eqb c "." && negb (contains_char "." e)
  | EmptyString => false
  end.

(** ** The two extractors

    The objects of the two libraries are records of the attributes that the
    code reads; dates are read and stored unchanged and are left out, as is
    the key [change_labels], which is always [None].  The code is modelled
    where no call raises. *)

Module PyDriller.

Inductive ModificationType : Type :=
| ADD | COPY | RENAME | DELETE | MODIFY | UNKNOWN.

Record ModifiedFile : Type := {
  filename : string;
  change_type : ModificationType;
  source_code_before : option string;
  source_code : option string;
  diff : option string;
  new_path : option string;
  old_path : option string;
  added_lines : Z;
  deleted_lines : Z
}.

Record Commit : Type := {
  hash : string;
  msg : string;
  author_name : string;
  parents : list string;
  modified_files : list ModifiedFile
}.

End PyDriller.

Module GitHub.

Record File : Type := {
  filename : string;
  status : string;
  additions : Z;
  deletions : Z;
  changes : Z;
  patch : option string
}.

Record Commit : Type := {
  sha : string;
  message : string;
  author_name : string;
  files : list File;
  parents : list string
}.

End GitHub.

(** The record of one file of one commit, as both extractors build it: the
    keys of the commit and of the file, and in [contents] the keys that the
    chunker works on. *)
Record file_level_data : Type := {
  commit_sha : string;
  commit_short_sha : string;
  commit_message : string;
  commit_author : string;
  total_files_in_commit : Z;
  sequence_order : Z;
  file_path : string;
  file_extension : string;
  change_type : string;
  lines_added : Z;
  lines_deleted : Z;
  total_changes : Z;
  contents : file_record
}.

(** The arguments of the command line that the traversal reads. *)
Record extraction_args : Type := {
  min_files : Z;
  max_files : Z;
  max_commits : option Z
}.

(** [x or ""] *)
Definition or_empty (x : option string) : string :=
  match x with
  | Some s => s
  | None => EmptyString
  end.

(** [x or y] for a string [y] *)
Definition or_else (x : option string) (y : string) : string :=
  if truthy x then or_empty x else y.

(** [s[:8]] *)
Definition short_sha_of (s : string) : string := substring 0 8 s.

(** The truth value of an integer that may be [None]. *)
Definition truthy_int (n : option Z) : bool :=
  match n with
  | None => false
  | Some k => negb (k =? 0)
  end.

Definition change_type_of (t : PyDriller.ModificationType) : string :=
  match t with
  | PyDriller.DELETE => "removed"
  | PyDriller.ADD => "added"
  | PyDriller.RENAME => "renamed"
  | _ => "modified"
  end.

(** The record of one modified file of a commit. *)
Definition pydriller_record (commit : PyDriller.Commit) (num_files file_index : Z)
    (modified_file : PyDriller.ModifiedFile) : file_level_data :=
  let before := or_empty (PyDriller.source_code_before modified_file) in
  let after := or_empty (PyDriller.source_code modified_file) in
  let patch' := or_empty (PyDriller.diff modified_file) in
  let path :=
    or_else (PyDriller.new_path modified_file)
      (or_else (PyDriller.old_path modified_file)
         (PyDriller.filename modified_file)) in
  {| commit_sha := PyDriller.hash commit;
     commit_short_sha := short_sha_of (PyDriller.hash commit);
     commit_message := strip (PyDriller.msg commit);
     commit_author := PyDriller.author_name commit;
     total_files_in_commit := num_files;
     sequence_order := file_index;
     file_path := path;
     file_extension := file_extension_of path;
     change_type := change_type_of (PyDriller.change_type modified_file);
     lines_added := PyDriller.added_lines modified_file;
     lines_deleted := PyDriller.deleted_lines modified_file;
     total_changes :=
       PyDriller.added_lines modified_file +
       PyDriller.deleted_lines modified_file;
     contents := file_level_record (Some patch') (Some before) (Some after) |}.

(** The body of the loop over [enumerate(commit.modified_files, start=1)]:
    files with no name or with a name that is not a text file's are passed
    over. *)
Definition pydriller_file_step (commit : PyDriller.Commit) (num_files : Z)
    (file_records : list file_level_data)
    (im : Z * PyDriller.ModifiedFile) : list file_level_data :=
  let '(file_index, modified_file) := im in
  if negb (truthy (Some (PyDriller.filename modified_file))) ||
     negb (is_text_file (PyDriller.filename modified_file))
  then file_records
  else file_records ++
       [pydriller_record commit num_files file_index modified_file].

(** The loop over the commits, with its counter and its [break]. *)
Fixpoint traverse_commits (args : extraction_args)
    (commits : list PyDriller.Commit) (processed_commits : Z)
    (file_records : list file_level_data) : list file_level_data :=
  match commits with
  | [] => file_records
  | commit :: rest =>
      if 1 <? Z.of_nat (length (PyDriller.parents commit))
      then traverse_commits args rest processed_commits file_records
      else
        let num_files := Z.of_nat (length (PyDriller.modified_files commit)) in
        if (num_files <? min_files args) || (max_files args <? num_files)
        then traverse_commits args rest processed_commits file_records
        else
          let processed_commits' := processed_commits + 1 in
          let file_records' :=
            fold_left (pydriller_file_step commit num_files)
              (enumerate 1 (PyDriller.modified_files commit)) file_records in
          if truthy_int (max_commits args) &&
             match max_commits args with
             | Some limit => limit <=? processed_commits'
             | None => false
             end
          then file_records'
          else traverse_commits args rest processed_commits' file_records'
  end.

(** [process_repository_with_pydriller], on the commits that the traversal
    of the repository gives. *)
Definition process_repository_with_pydriller
    (commits : list PyDriller.Commit) (args : extraction_args)
  : list file_level_data :=
  traverse_commits args commits 0 [].

(** The entries of [commit_info['file_details']] and the commit
    information of [filter_commits]. *)
Record file_info : Type := {
  filename : string;
  status : string;
  additions : Z;
  deletions : Z;
  changes : Z
}.

Record commit_info : Type := {
  sha : string;
  short_sha : string;
  message : string;
  author : string;
  files_changed : Z;
  files : list string;
  file_details : list file_info
}.

Definition file_info_of (file_change : GitHub.File) : file_info :=
  {| filename := GitHub.filename file_change;
     status := GitHub.status file_change;
     additions := GitHub.additions file_change;
     deletions := GitHub.deletions file_change;
     changes := GitHub.changes file_change |}.

(** The body of the loop of [filter_commits]. *)
Definition filter_commit_step (min_files max_files : Z)
    (filtered_commits : list commit_info) (commit : GitHub.Commit)
  : list commit_info :=
  let changed_files := GitHub.files commit in
  let file_count := Z.of_nat (length changed_files) in
  if (min_files <=? file_count) && (file_count <=? max_files) then
    let commit_info0 :=
      {| sha := GitHub.sha commit;
         short_sha := short_sha_of (GitHub.sha commit);
         message := strip (GitHub.message commit);
         author := GitHub.author_name commit;
         files_changed := file_count;
         files := map GitHub.filename changed_files;
         file_details := [] |} in
    let commit_info1 :=
      fold_left
        (fun info file_change =>
           {| sha := sha info;
              short_sha := short_sha info;
              message := message info;
              author := author info;
              files_changed := files_changed info;
              files := files info;
              file_details := file_details info ++ [file_info_of file_change] |})
        changed_files commit_info0 in
    filtered_commits ++ [commit_info1]
  else filtered_commits.

(** [filter_commits], on the commits that the repository lists. *)
Definition filter_commits (all_commits : list GitHub.Commit)
    (min_files max_files : Z) : list commit_info :=
  fold_left (filter_commit_step min_files max_files) all_commits [].

(** [get_patch_for_file]: the patch of the first file of the commit with
    that name. *)
Fixpoint find_patch (files : list GitHub.File) (file_path : string)
  : option string :=
  match files with
  | [] => None
  | file_change :: rest =>
      if String.eqb (GitHub.filename file_change) file_path
      then GitHub.patch file_change
      else find_patch rest file_path
  end.

Definition get_patch_for_file (commit_obj : GitHub.Commit) (file_path : string)
  : option string :=
  find_patch (GitHub.files commit_obj) file_path.

(** [extract_file_level_data]: the repository is the two functions
    [get_commit] ([repo.get_commit]) and [get_file_content] (with [None]
    where the content cannot be had). *)
Section ExtractFileLevelData.

Variable get_commit : string -> GitHub.Commit.
Variable get_file_content : string -> string -> option string.

Definition github_record (commit : commit_info) (commit_obj : GitHub.Commit)
    (file_index : Z) (file_detail : file_info) : file_level_data :=
  let path := filename file_detail in
  let change := status file_detail in
  let patch' := get_patch_for_file commit_obj path in
  let before :=
    if negb (String.eqb change "added") then
      match GitHub.parents commit_obj with
      | parent_sha :: _ => get_file_content path parent_sha
      | [] => None
      end
    else None in
  let after :=
    if negb (String.eqb change "removed")
    then get_file_content path (sha commit)
    else None in
  {| commit_sha := sha commit;
     commit_short_sha := short_sha commit;
     commit_message := message commit;
     commit_author := author commit;
     total_files_in_commit := Z.of_nat (length (file_details commit));
     sequence_order := file_index + 1;
     file_path := path;
     file_extension := file_extension_of path;
     change_type := change;
     lines_added := additions file_detail;
     lines_deleted := deletions file_detail;
     total_changes := changes file_detail;
     contents := file_level_record patch' before after |}.

Definition extract_file_level_data (filtered_commits : list commit_info)
  : list file_level_data :=
  fold_left
    (fun file_level_records commit =>
       let commit_obj := get_commit (sha commit) in
       fold_left
         (fun records (id : Z * file_info) =>
            records ++ [github_record commit commit_obj (fst id) (snd id)])
         (enumerate 0 (file_details commit)) file_level_records)
    filtered_commits [].

End ExtractFileLevelData.

(** *** Vocabulary of the extractors' properties *)

(** A commit that the traversal takes: not a merge, and with a number of
    modified files within the bounds. *)
Definition accepted_commit (args : extraction_args) (commit : PyDriller.Commit)
  : bool :=
  negb (1 <? Z.of_nat (length (PyDriller.parents commit))) &&
  negb ((Z.of_nat (length (PyDriller.modified_files commit)) <? min_files args)
        || (max_files args
            <? Z.of_nat (length (PyDriller.modified_files commit)))).

(** The records of the text files of one commit. *)
Definition commit_records (commit : PyDriller.Commit) : list file_level_data :=
  flat_map
    (pydriller_file_step commit
       (Z.of_nat (length (PyDriller.modified_files commit))) [])
    (enumerate 1 (PyDriller.modified_files commit)).

Definition or_zero (n : option Z) : Z :=
  match n with
  | Some k => k
  | None => 0
  end.

(** The commits that are reached before the limit stops the traversal: all
    of them when there is no limit or the limit is 0, and otherwise the
    first [limit] of them, or the first one when the limit is below 1. *)
Definition within_limit {A} (limit : option Z) (processed : Z) (l : list A)
  : list A :=
  if truthy_int limit
  then firstn (Z.to_nat (Z.max 1 (or_zero limit - processed))) l
  else l.

(** A commit with a number of files within the bounds. *)
Definition in_bounds (min_files max_files : Z) (commit : GitHub.Commit) : bool :=
  (min_files <=? Z.of_nat (length (GitHub.files commit))) &&
  (Z.of_nat (length (GitHub.files commit)) <=? max_files).

(** The commit information of a commit, with the details of all its
    files. *)
Definition commit_info_of (commit : GitHub.Commit) : commit_info :=
  {| sha := GitHub.sha commit;
     short_sha := short_sha_of (GitHub.sha commit);
     message := strip (GitHub.message commit);
     author := GitHub.author_name commit;
     files_changed := Z.of_nat (length (GitHub.files commit));
     files := map GitHub.filename (GitHub.files commit);
     file_details := map file_info_of (GitHub.files commit) |}.

(** A commit that adds one file and changes another, a repository that
    holds it, and the record of the added file. *)
Definition adding_commit : GitHub.Commit :=
  {| GitHub.sha := "0123456789abcdef";
     GitHub.message := "add new.py";
     GitHub.author_name := "a";
     GitHub.files :=
       [{| GitHub.filename := "new.py"; GitHub.status := "added";
           GitHub.additions := 2; GitHub.deletions := 0; GitHub.changes := 2;
           GitHub.patch := Some "@@ -0,0 +1,2 @@"%string |};
        {| GitHub.filename := "old.py"; GitHub.status := "modified";
           GitHub.additions := 1; GitHub.deletions := 1; GitHub.changes := 2;
           GitHub.patch := Some "@@ -1 +1 @@"%string |}];
     GitHub.parents := ["fedcba9876543210"%string] |}.

Definition adding_repository_commit (_ : string) : GitHub.Commit :=
  adding_commit.

Definition adding_repository_content (_ _ : string) : option string :=
  Some "x"%string.

Definition added_record : file_level_data :=
  github_record adding_repository_content (commit_info_of adding_commit)
    adding_commit 0
    {| filename := "new.py"; status := "added";
       additions := 2; deletions := 0; changes := 2 |}.

(** ** Properties of the merger *)

Section MergerFacts.

Variable max_gap : Z.

Lemma insert_by_start_In h x l :
  In x (insert_by_start h l) <-> x = h \/ In x l.
Proof.
  induction l as [|y l IH]; simpl.
  - intuition.
  - destruct (h_start h <=? h_start y); simpl; rewrite ?IH; intuition.
Qed.

Lemma sorted_by_key_In x hunks : In x (sorted_by_key hunks) <-> In x hunks.
Proof.
  induction hunks as [|h hunks IH]; simpl; [tauto|].
  rewrite insert_by_start_In, IH. intuition.
Qed.

Lemma insert_by_start_length h l :
  length (insert_by_start h l) = S (length l).
Proof.
  induction l as [|y l IH]; simpl; [reflexivity|].
  destruct (h_start h <=? h_start y); simpl; congruence.
Qed.

Lemma insert_by_start_sorted h l :
  StronglySorted start_le l -> StronglySorted start_le (insert_by_start h l).
Proof.
  induction 1 as [|y l Hs IH Hall]; simpl.
  - repeat constructor.
  - destruct (h_start h <=? h_start y) eqn:E.
    + apply Z.leb_le in E. constructor.
      * constructor; assumption.
      * constructor; [exact E|].
        eapply Forall_impl; [|exact Hall].
        unfold start_le; intros; lia.
    + apply Z.leb_gt in E. constructor; [exact IH|].
      apply Forall_forall. intros x Hx.
      apply insert_by_start_In in Hx. destruct Hx as [->|Hx].
      * unfold start_le; lia.
      * rewrite Forall_forall in Hall. auto.
Qed.

Lemma sorted_by_key_sorted hunks : StronglySorted start_le (sorted_by_key hunks).
Proof.
  induction hunks; simpl; [constructor | now apply insert_by_start_sorted].
Qed.

(** The sort is stable: hunks with the same start keep their order. *)
Lemma insert_by_start_filter k h l :
  filter (fun x => h_start x =? k) (insert_by_start h l) =
  filter (fun x => h_start x =? k) (h :: l).
Proof.
  induction l as [|y l IH]; [reflexivity|].
  cbn [insert_by_start]. destruct (h_start h <=? h_start y) eqn:E;
    [reflexivity|].
  apply Z.leb_gt in E. cbn [filter] in *. rewrite IH.
  destruct (h_start h =? k) eqn:Eh; [|reflexivity].
  apply Z.eqb_eq in Eh.
  destruct (h_start y =? k) eqn:Ey; [|reflexivity].
  apply Z.eqb_eq in Ey. lia.
Qed.

Lemma sorted_by_key_stable k hunks :
  filter (fun x => h_start x =? k) (sorted_by_key hunks) =
  filter (fun x => h_start x =? k) hunks.
Proof.
  induction hunks as [|h hunks IH]; [reflexivity|].
  cbn [sorted_by_key fold_right]. rewrite insert_by_start_filter.
  cbn [filter]. fold (sorted_by_key hunks). now rewrite IH.
Qed.

(** Sorting a list whose starts already ascend leaves it as it is. *)
Lemma sorted_by_key_fixed l :
  StronglySorted start_le l -> sorted_by_key l = l.
Proof.
  induction 1 as [|y l Hs IH Hall]; simpl; [reflexivity|].
  rewrite IH. destruct l as [|z l]; [reflexivity|]. simpl.
  inversion Hall as [|? ? Hyz _]; subst. unfold start_le in Hyz.
  destruct (h_start y <=? h_start z) eqn:E; [reflexivity|].
  apply Z.leb_gt in E. lia.
Qed.

(** The loop over [merged] is the scan [merge_from]. *)
Lemma merge_step_snoc pre cur c :
  merge_step max_gap (pre ++ [cur]) c =
  if h_start c - h_end cur <=? max_gap
  then pre ++ [(h_start cur, Z.max (h_end cur) (h_end c))]
  else (pre ++ [cur]) ++ [c].
Proof.
  unfold merge_step. rewrite last_last, removelast_last. reflexivity.
Qed.

Lemma merge_loop_from rest : forall pre cur,
  fold_left (merge_step max_gap) rest (pre ++ [cur]) =
  pre ++ merge_from max_gap cur rest.
Proof.
  induction rest as [|c r IH]; intros pre cur; simpl; [reflexivity|].
  rewrite merge_step_snoc.
  destruct (h_start c - h_end cur <=? max_gap).
  - apply IH.
  - rewrite IH, <- app_assoc. reflexivity.
Qed.

Lemma merge_from_nonempty rest : forall cur, merge_from max_gap cur rest <> [].
Proof.
  induction rest as [|c r IH]; intros cur; simpl; [discriminate|].
  destruct (_ <=? _); [apply IH|discriminate].
Qed.

Lemma merge_loop_nonempty rest pre cur :
  fold_left (merge_step max_gap) rest (pre ++ [cur]) <> [].
Proof.
  rewrite merge_loop_from. intros E. apply app_eq_nil in E.
  now apply (merge_from_nonempty rest cur).
Qed.

Lemma merge_close_hunks_from hunks :
  merge_close_hunks hunks max_gap =
  match sorted_by_key hunks with
  | [] => []
  | first :: rest => merge_from max_gap first rest
  end.
Proof.
  unfold merge_close_hunks. destruct hunks as [|h hunks]; [reflexivity|].
  destruct (sorted_by_key (h :: hunks)) as [|first rest]; [reflexivity|].
  apply (merge_loop_from rest [] first).
Qed.

(** *** Shape of the scan's output *)

Lemma merge_from_head rest : forall cur,
  exists e tl, merge_from max_gap cur rest = (h_start cur, e) :: tl
               /\ h_end cur <= e.
Proof.
  induction rest as [|c r IH]; intros [s e0]; simpl.
  - exists e0, []. split; [reflexivity|lia].
  - destruct (_ <=? _).
    + destruct (IH (s, Z.max e0 (h_end c))) as (e & tl & -> & He).
      simpl in *. exists e, tl. split; [reflexivity|lia].
    + exists e0, (merge_from max_gap c r). split; [reflexivity|lia].
Qed.

(** Every region starts where one of the scanned hunks starts. *)
Lemma merge_from_starts rest : forall cur x,
  In x (merge_from max_gap cur rest) ->
  exists h, In h (cur :: rest) /\ h_start x = h_start h.
Proof.
  induction rest as [|c r IH]; intros cur x; simpl.
  - intros [<-|[]]. exists cur. auto.
  - destruct (_ <=? _).
    + intros Hx. apply IH in Hx. destruct Hx as (h & [<-|Hh] & E).
      * exists cur. auto.
      * exists h. auto.
    + intros [<-|Hx].
      * exists cur. auto.
      * apply IH in Hx. destruct Hx as (h & Hh & E). exists h. auto.
Qed.

(** Consecutive regions are more than [max_gap] apart. *)
Lemma merge_from_apart rest : forall cur,
  Sorted (apart max_gap) (merge_from max_gap cur rest).
Proof.
  induction rest as [|c r IH]; intros cur; simpl.
  - repeat constructor.
  - destruct (h_start c - h_end cur <=? max_gap) eqn:E; [apply IH|].
    apply Z.leb_gt in E. constructor; [apply IH|].
    destruct (merge_from_head r c) as (e & tl & -> & _).
    constructor. unfold apart. simpl. lia.
Qed.

Lemma merge_from_sorted rest : forall cur,
  StronglySorted start_le rest -> Forall (start_le cur) rest ->
  StronglySorted start_le (merge_from max_gap cur rest).
Proof.
  induction rest as [|c r IH]; intros cur Hs Hc; simpl.
  - repeat constructor.
  - inversion Hs as [|? ? Hr Hcr]; subst.
    inversion Hc as [|? ? Hcc Hcr']; subst.
    destruct (_ <=? _).
    + apply IH; [exact Hr|]. exact Hcr'.
    + constructor; [now apply IH|].
      apply Forall_forall. intros x Hx.
      apply merge_from_starts in Hx. destruct Hx as (h & Hh & E).
      unfold start_le in *. rewrite E. destruct Hh as [<-|Hh]; [exact Hcc|].
      rewrite Forall_forall in Hcr'. now apply Hcr'.
Qed.

(** With a gap that is not negative, a region ends before every later region
    starts. *)
Lemma merge_from_separated rest : forall cur,
  0 <= max_gap ->
  StronglySorted start_le rest ->
  StronglySorted ends_before (merge_from max_gap cur rest).
Proof.
  induction rest as [|c r IH]; intros cur Hg Hs; simpl.
  - repeat constructor.
  - inversion Hs as [|? ? Hr Hcr]; subst.
    destruct (h_start c - h_end cur <=? max_gap) eqn:E; [now apply IH|].
    apply Z.leb_gt in E. constructor; [now apply IH|].
    apply Forall_forall. intros x Hx.
    apply merge_from_starts in Hx. destruct Hx as (h & Hh & Ex).
    unfold ends_before. rewrite Ex. destruct Hh as [<-|Hh]; [lia|].
    rewrite Forall_forall in Hcr. specialize (Hcr h Hh).
    unfold start_le in Hcr. lia.
Qed.

(** Every scanned hunk lies within a region of the output. *)
Lemma merge_from_within rest : forall cur h,
  Forall (start_le cur) rest ->
  StronglySorted start_le rest ->
  within h cur \/ In h rest ->
  exists r, In r (merge_from max_gap cur rest) /\ within h r.
Proof.
  induction rest as [|c r IH]; intros cur h Hc Hs Hh; simpl.
  - destruct Hh as [Hh|[]]. exists cur. simpl. auto.
  - inversion Hs as [|? ? Hr Hcr]; subst.
    inversion Hc as [|? ? Hcc Hcr']; subst.
    unfold start_le in Hcc.
    destruct (_ <=? _).
    + apply IH; [exact Hcr'|exact Hr|].
      unfold within in *. simpl.
      destruct Hh as [Hh|[<-|Hh]]; [left; lia|left; lia|right; exact Hh].
    + destruct Hh as [Hh|[<-|Hh]].
      * exists cur. simpl. auto.
      * destruct (IH c c Hcr Hr) as (x & Hx & Hw).
        { left. unfold within. lia. }
        exists x. simpl. auto.
      * destruct (IH c h Hcr Hr) as (x & Hx & Hw); [now right|].
        exists x. simpl. auto.
Qed.

(** A list whose consecutive elements are apart is left alone by the scan. *)
Lemma merge_from_fixed l : forall a,
  Sorted (apart max_gap) (a :: l) -> merge_from max_gap a l = a :: l.
Proof.
  induction l as [|b l IH]; intros a Hs; simpl; [reflexivity|].
  inversion Hs as [|? ? Hs' Hd]; subst. inversion Hd as [|? ? Hab]; subst.
  unfold apart in Hab.
  destruct (h_start b - h_end a <=? max_gap) eqn:E.
  - apply Z.leb_le in E. lia.
  - now rewrite IH.
Qed.

(** With no gap allowed, the scan covers no line that no hunk covers. *)
Lemma merge_from_covered_zero rest : forall cur l,
  max_gap <= 0 ->
  covered (merge_from max_gap cur rest) l -> covers cur l \/ covered rest l.
Proof.
  induction rest as [|c r IH]; intros cur l Hg; simpl.
  - intros (h & [<-|[]] & Hl). now left.
  - destruct (h_start c - h_end cur <=? max_gap) eqn:E.
    + apply Z.leb_le in E. intros Hcov.
      apply IH in Hcov; [|exact Hg]. destruct Hcov as [Hl|(h & Hh & Hl)].
      * unfold covers in *. simpl in Hl.
        destruct (Z.lt_ge_cases l (h_end cur)); [left; lia|].
        right. exists c. split; [now left|]. unfold covers. lia.
      * right. exists h. split; [now right|exact Hl].
    + intros (h & [<-|Hh] & Hl); [now left|].
      destruct (IH c l Hg) as [Hc|(h' & Hh' & Hl')].
      * exists h. auto.
      * right. exists c. split; [now left|exact Hc].
      * right. exists h'. split; [now right|exact Hl'].
Qed.

End MergerFacts.

(** *** The merger's output *)

Lemma StronglySorted_nth {A} (R : A -> A -> Prop) (l : list A) :
  StronglySorted R l ->
  forall (i j : nat) a b,
    (i < j)%nat -> nth_error l i = Some a -> nth_error l j = Some b -> R a b.
Proof.
  induction 1 as [|x l Hs IH Hall]; intros i j a b Hij Hi Hj.
  - destruct i; discriminate.
  - destruct j as [|j]; [lia|]. simpl in Hj. destruct i as [|i]; simpl in Hi.
    + injection Hi as <-. rewrite Forall_forall in Hall.
      apply Hall. eapply nth_error_In; eauto.
    + apply (IH i j); [lia|assumption..].
Qed.

Lemma StronglySorted_pairs {A} (R : A -> A -> Prop) (l : list A) :
  StronglySorted R l -> ForallOrdPairs R l.
Proof.
  induction 1; constructor; assumption.
Qed.

Lemma ForallOrdPairs_impl {A} (R Q : A -> A -> Prop) (l : list A) :
  (forall a b, R a b -> Q a b) -> ForallOrdPairs R l -> ForallOrdPairs Q l.
Proof.
  intros HRQ. induction 1 as [|x l Hx _ IH]; constructor; [|exact IH].
  eapply Forall_impl; [|exact Hx]. auto.
Qed.

Lemma ends_before_no_overlap a b :
  start_le a b -> ends_before a b -> ~ overlap a b.
Proof.
  unfold start_le, ends_before, overlap, covers. intros H1 H2 (l & Ha & Hb). lia.
Qed.

Section MergerOutput.

Variables (hunks : list hunk) (max_gap : Z).

Let regions := merge_close_hunks hunks max_gap.

Lemma regions_sorted : StronglySorted start_le regions.
Proof.
  unfold regions. rewrite merge_close_hunks_from.
  pose proof (sorted_by_key_sorted hunks) as Hs.
  destruct (sorted_by_key hunks) as [|first rest]; [constructor|].
  inversion Hs; subst. now apply merge_from_sorted.
Qed.

Lemma regions_apart : Sorted (apart max_gap) regions.
Proof.
  unfold regions. rewrite merge_close_hunks_from.
  destruct (sorted_by_key hunks) as [|first rest]; [constructor|].
  apply merge_from_apart.
Qed.

Lemma regions_separated : 0 <= max_gap -> StronglySorted ends_before regions.
Proof.
  intros Hg. unfold regions. rewrite merge_close_hunks_from.
  pose proof (sorted_by_key_sorted hunks) as Hs.
  destruct (sorted_by_key hunks) as [|first rest]; [constructor|].
  inversion Hs; subst. now apply merge_from_separated.
Qed.

Lemma regions_within h :
  In h hunks -> exists r, In r regions /\ within h r.
Proof.
  intros Hh. unfold regions. rewrite merge_close_hunks_from.
  pose proof (sorted_by_key_sorted hunks) as Hs.
  apply sorted_by_key_In in Hh.
  destruct (sorted_by_key hunks) as [|first rest]; [destruct Hh|].
  inversion Hs; subst. apply merge_from_within; try assumption.
  destruct Hh as [<-|Hh]; [left|now right]. unfold within. lia.
Qed.

Lemma regions_no_overlap :
  0 <= max_gap -> ForallOrdPairs (fun a b => ~ overlap a b) regions.
Proof.
  intros Hg. pose proof regions_sorted as H1.
  pose proof (regions_separated Hg) as H2.
  induction H1 as [|x l Hs IH Hall]; [constructor|].
  inversion H2 as [|? ? Hs2 Hall2]; subst.
  constructor; [|now apply IH].
  rewrite Forall_forall in *. intros y Hy.
  apply ends_before_no_overlap; auto.
Qed.

End MergerOutput.

(** C1.  For hunks with [start <= end] and a gap that is not negative, the
    regions returned by [merge_close_hunks] ascend by start, no two of them
    share a line, and the range of every input hunk lies within the region
    at exactly one position of the output; no hunks give no regions. *)
Theorem merge_close_hunks_regions (hunks : list hunk) (max_gap : Z) :
  0 <= max_gap ->
  Forall well_formed hunks ->
  let regions := merge_close_hunks hunks max_gap in
  StronglySorted start_le regions /\
  ForallOrdPairs (fun a b => ~ overlap a b) regions /\
  (forall h, In h hunks ->
     exists! i : nat, exists r, nth_error regions i = Some r /\ within h r) /\
  merge_close_hunks [] max_gap = [].
Proof.
  intros Hg Hwf regions. repeat split.
  - apply regions_sorted.
  - now apply regions_no_overlap.
  - intros h Hh.
    destruct (regions_within hunks max_gap h Hh) as (r & Hr & Hw).
    apply In_nth_error in Hr. destruct Hr as (i & Hi).
    exists i. split; [exists r; auto|].
    intros j (r' & Hj & Hw').
    rewrite Forall_forall in Hwf. specialize (Hwf h Hh).
    pose proof (regions_separated hunks max_gap Hg) as Hsep.
    unfold well_formed, within in *.
    destruct (Nat.lt_total i j) as [Hlt|[Heq|Hlt]]; [|exact Heq|].
    + pose proof (StronglySorted_nth _ _ Hsep i j r r' Hlt Hi Hj) as Hb.
      unfold ends_before in Hb. lia.
    + pose proof (StronglySorted_nth _ _ Hsep j i r' r Hlt Hj Hi) as Hb.
      unfold ends_before in Hb. lia.
Qed.

Lemma merge_close_hunks_regions_witness :
  0 <= 10 /\
  Forall well_formed [(40, 41); (15, 18); (5, 8)] /\
  StronglySorted start_le (merge_close_hunks [(40, 41); (15, 18); (5, 8)] 10) /\
  merge_close_hunks [(40, 41); (15, 18); (5, 8)] 10 = [(5, 18); (40, 41)].
Proof.
  assert (Hg : 0 <= 10) by lia.
  assert (Hwf : Forall well_formed [(40, 41); (15, 18); (5, 8)]).
  { repeat constructor; unfold well_formed; simpl; lia. }
  split; [exact Hg|]. split; [exact Hwf|]. split; [|reflexivity].
  exact (proj1 (merge_close_hunks_regions _ _ Hg Hwf)).
Defined.

(** *** Coverage *)

Lemma within_covers h r l : within h r -> covers h l -> covers r l.
Proof. unfold within, covers. lia. Qed.

Lemma merge_close_hunks_covered_zero hunks l :
  covered (merge_close_hunks hunks 0) l -> covered hunks l.
Proof.
  rewrite merge_close_hunks_from.
  assert (Hin : forall x, In x (sorted_by_key hunks) -> In x hunks)
    by (intros x; apply sorted_by_key_In).
  destruct (sorted_by_key hunks) as [|first rest].
  - intros (h & [] & _).
  - intros Hcov. apply merge_from_covered_zero in Hcov; [|lia].
    destruct Hcov as [Hl|(h & Hh & Hl)].
    + exists first. split; [apply Hin; now left|exact Hl].
    + exists h. split; [apply Hin; now right|exact Hl].
Qed.

(** C6, as the code has it.  Every line of an input hunk is a line of a
    merged region, whatever the gap; with [max_gap = 0] the merged regions
    cover exactly the lines the input hunks cover. *)
Theorem merge_close_hunks_coverage (hunks : list hunk) (max_gap : Z) :
  (forall l, covered hunks l -> covered (merge_close_hunks hunks max_gap) l) /\
  (forall l, covered (merge_close_hunks hunks 0) l <-> covered hunks l).
Proof.
  assert (Hsub : forall g l,
             covered hunks l -> covered (merge_close_hunks hunks g) l).
  { intros g l (h & Hh & Hl).
    destruct (regions_within hunks g h Hh) as (r & Hr & Hw).
    exists r. split; [exact Hr|]. eapply within_covers; eauto. }
  split; [apply Hsub|].
  intros l. split; [apply merge_close_hunks_covered_zero|apply Hsub].
Qed.

Lemma merge_close_hunks_coverage_witness :
  covered [(5, 8); (15, 18)] 16 /\
  covered (merge_close_hunks [(5, 8); (15, 18)] 10) 16.
Proof.
  assert (H : covered [(5, 8); (15, 18)] 16).
  { exists (15, 18). split; [simpl; auto|]. unfold covers; simpl; lia. }
  split; [exact H|].
  exact (proj1 (merge_close_hunks_coverage [(5, 8); (15, 18)] 10) 16 H).
Defined.

(** C6, as it is stated, fails: hunks [5,8) and [15,18) merged with a gap of
    10 give the region [5,18), which covers line 10, a line of neither
    hunk. *)
Lemma merge_close_hunks_coverage_not_equal :
  ~ (forall l, covered (merge_close_hunks [(5, 8); (15, 18)] 10) l <->
               covered [(5, 8); (15, 18)] l).
Proof.
  intros H. destruct (proj1 (H 10)) as (h & Hh & Hl).
  - exists (5, 18). split; [simpl; auto|]. unfold covers; simpl; lia.
  - simpl in Hh. unfold covers in Hl.
    destruct Hh as [<-|[<-|[]]]; simpl in Hl; lia.
Qed.

(** *** Idempotence *)

(** C9.  Merging the output of [merge_close_hunks] once more with the same
    gap gives that output back. *)
Theorem merge_close_hunks_idempotent (hunks : list hunk) (max_gap : Z) :
  merge_close_hunks (merge_close_hunks hunks max_gap) max_gap =
  merge_close_hunks hunks max_gap.
Proof.
  pose proof (regions_sorted hunks max_gap) as Hs.
  pose proof (regions_apart hunks max_gap) as Ha.
  rewrite (merge_close_hunks_from max_gap (merge_close_hunks hunks max_gap)).
  rewrite (sorted_by_key_fixed _ Hs).
  destruct (merge_close_hunks hunks max_gap) as [|first rest]; [reflexivity|].
  now apply merge_from_fixed.
Qed.

(** *** Monotonicity in the gap *)

Lemma merge_from_length_mono (g1 g2 : Z) (rest : list hunk) :
  g1 <= g2 ->
  forall c1 c2, h_end c1 <= h_end c2 ->
    (length (merge_from g2 c2 rest) <= length (merge_from g1 c1 rest))%nat.
Proof.
  intros Hg. induction rest as [|c r IH]; intros c1 c2 He; simpl; [lia|].
  destruct (h_start c - h_end c1 <=? g1) eqn:E1;
    destruct (h_start c - h_end c2 <=? g2) eqn:E2.
  - apply IH. simpl. lia.
  - apply Z.leb_le in E1. apply Z.leb_gt in E2. lia.
  - simpl. etransitivity; [apply (IH c)|lia]. simpl. lia.
  - simpl. apply le_n_S. apply IH. lia.
Qed.

(** C10.  A larger gap never gives more regions. *)
Theorem merge_close_hunks_monotone (hunks : list hunk) (max_gap1 max_gap2 : Z) :
  max_gap1 <= max_gap2 ->
  (length (merge_close_hunks hunks max_gap2) <=
   length (merge_close_hunks hunks max_gap1))%nat.
Proof.
  intros Hg. rewrite !merge_close_hunks_from.
  destruct (sorted_by_key hunks) as [|first rest]; [reflexivity|].
  apply merge_from_length_mono; [exact Hg|lia].
Qed.

Lemma merge_close_hunks_monotone_witness :
  5 <= 10 /\
  Nat.le (length (merge_close_hunks [(5, 8); (15, 18)] 10))
         (length (merge_close_hunks [(5, 8); (15, 18)] 5)).
Proof.
  assert (Hg : 5 <= 10) by lia.
  split; [exact Hg|].
  exact (merge_close_hunks_monotone [(5, 8); (15, 18)] 5 10 Hg).
Defined.

(** ** Properties of the parser *)

Section StringFacts.

Local Open Scope string_scope.

Lemma split_lines_nonempty s : split_lines s <> [].
Proof.
  induction s as [|c s IH]; simpl; [discriminate|].
  destruct (Ascii.eqb c newline); [discriminate|].
  now destruct (split_lines s).
Qed.

Lemma append_assoc (a b c : string) : (a ++ b) ++ c = a ++ (b ++ c).
Proof. induction a as [|x a IH]; simpl; [reflexivity|now rewrite IH]. Qed.

Lemma append_empty_r (a : string) : a ++ "" = a.
Proof. induction a as [|x a IH]; simpl; [reflexivity|now rewrite IH]. Qed.

(** Joining the lines of a text gives the text back. *)
Lemma join_split_lines s : join_lines (split_lines s) = s.
Proof.
  unfold join_lines. set (sep := String newline "").
  induction s as [|c s IH]; [reflexivity|].
  cbn [split_lines]. pose proof (split_lines_nonempty s) as Hne.
  destruct (Ascii.eqb c newline) eqn:E.
  - apply Ascii.eqb_eq in E. subst c.
    destruct (split_lines s) as [|l ls]; [congruence|].
    change (String.concat sep ("" :: l :: ls))
      with (String newline (String.concat sep (l :: ls))).
    now rewrite IH.
  - destruct (split_lines s) as [|l ls]; [congruence|].
    destruct ls as [|l' ls].
    + simpl in *. now rewrite IH.
    + change (String.concat sep (String c l :: l' :: ls))
        with (String c (String.concat sep (l :: l' :: ls))).
      now rewrite IH.
Qed.

Lemma span_digits_stop s :
  starts_with_digit s = false -> span_digits s = ("", s).
Proof.
  destruct s as [|c r]; simpl; [reflexivity|]. now intros ->.
Qed.

Lemma span_digits_spec s :
  s = fst (span_digits s) ++ snd (span_digits s) /\
  all_digits (fst (span_digits s)) = true /\
  starts_with_digit (snd (span_digits s)) = false.
Proof.
  induction s as [|c r IH]; simpl; [auto|].
  destruct (is_digit c) eqn:E.
  - destruct (span_digits r) as [g t]. simpl in *.
    destruct IH as (-> & Hg & Ht). rewrite E, Hg. auto.
  - simpl. rewrite E. auto.
Qed.

Lemma span_digits_app g t :
  all_digits g = true -> starts_with_digit t = false ->
  span_digits (g ++ t) = (g, t).
Proof.
  induction g as [|c g IH]; simpl; intros Hg Ht.
  - now apply span_digits_stop.
  - apply andb_true_iff in Hg. destruct Hg as [-> Hg]. now rewrite IH.
Qed.

Lemma strip_prefix_app p r : strip_prefix p (p ++ r) = Some r.
Proof.
  induction p as [|c p IH]; simpl; [reflexivity|].
  now rewrite Ascii.eqb_refl.
Qed.

Lemma strip_prefix_spec p : forall s r, strip_prefix p s = Some r -> s = p ++ r.
Proof.
  induction p as [|c p IH]; simpl; intros s r H.
  - now injection H as ->.
  - destruct s as [|c' s]; [discriminate|].
    destruct (Ascii.eqb c' c) eqn:E; [|discriminate].
    apply Ascii.eqb_eq in E. subst c'. f_equal. now apply IH.
Qed.

Lemma after_comma_digit s : starts_with_digit s = true -> after_comma s = s.
Proof.
  destruct s as [|c r]; simpl; [reflexivity|].
  destruct (Ascii.eqb c ",") eqn:E; [|reflexivity].
  apply Ascii.eqb_eq in E. subst c. discriminate.
Qed.

Lemma after_comma_other s : starts_with_comma s = false -> after_comma s = s.
Proof.
  destruct s as [|c r]; simpl; [reflexivity|]. now intros ->.
Qed.

End StringFacts.

Section MatcherFacts.

Local Open Scope string_scope.

(** The greedy repetition takes the whole run of digits when the
    continuation cannot gain from a shorter one. *)
Lemma greedy_digits_span k s :
  absorbs k ->
  greedy_digits k s =
  option_map (pair (fst (span_digits s))) (k (snd (span_digits s))).
Proof.
  intros Hk. induction s as [|c r IH]; simpl; [reflexivity|].
  destruct (is_digit c) eqn:E; [|reflexivity].
  rewrite IH. pose proof (Hk (String c r)) as Habs. simpl in Habs.
  rewrite E in Habs. destruct (span_digits r) as [g t]. simpl in *.
  destruct (k t) as [gs|]; simpl; [reflexivity|].
  now rewrite Habs.
Qed.

Lemma fails_absorbs k :
  (forall s, starts_with_digit s = true -> k s = None) -> absorbs k.
Proof.
  intros H s. destruct (starts_with_digit s) eqn:E.
  - intros _. now apply H.
  - now rewrite span_digits_stop.
Qed.

Lemma match_digits0 q s :
  absorbs (match_here q) ->
  match_here (Digits0 :: q) s =
  option_map (cons (fst (span_digits s))) (match_here q (snd (span_digits s))).
Proof.
  intros Hq. simpl. rewrite greedy_digits_span by exact Hq.
  now destruct (match_here q _).
Qed.

Lemma match_digits1 q s :
  absorbs (match_here q) ->
  match_here (Digits1 :: q) s =
  match fst (span_digits s) with
  | "" => None
  | String _ _ as g => option_map (cons g) (match_here q (snd (span_digits s)))
  end.
Proof.
  intros Hq. destruct s as [|c r]; simpl; [reflexivity|].
  destruct (is_digit c); [|reflexivity].
  rewrite greedy_digits_span by exact Hq.
  destruct (span_digits r) as [g t]. simpl.
  now destruct (match_here q t).
Qed.

Section CountTail.

(** What follows the count in the pattern starts with a literal that is
    neither a digit nor the comma. *)
Variable q : list piece.
Hypothesis q_digit : forall s, starts_with_digit s = true -> match_here q s = None.
Hypothesis q_comma : forall s, starts_with_comma s = true -> match_here q s = None.

Lemma match_count_tail s :
  match_here (OptLit "," :: Digits0 :: q) s =
  option_map (cons (fst (span_digits (after_comma s))))
             (match_here q (snd (span_digits (after_comma s)))).
Proof.
  pose proof (fails_absorbs _ q_digit) as Hq.
  change (match_here (OptLit "," :: Digits0 :: q) s) with
    (match s with
     | String c' r =>
         if Ascii.eqb c' ","
         then match match_here (Digits0 :: q) r with
              | Some gs => Some gs
              | None => match_here (Digits0 :: q) s
              end
         else match_here (Digits0 :: q) s
     | "" => match_here (Digits0 :: q) s
     end).
  destruct s as [|c r].
  - now rewrite match_digits0.
  - simpl after_comma. destruct (Ascii.eqb c ",") eqn:E.
    + rewrite !match_digits0 by exact Hq.
      rewrite (span_digits_stop (String c r)).
      * simpl. rewrite (q_comma (String c r)) by (simpl; exact E).
        now destruct (match_here q _).
      * simpl. apply Ascii.eqb_eq in E. now subst c.
    + now rewrite match_digits0.
Qed.

Lemma absorbs_count_tail : absorbs (match_here (OptLit "," :: Digits0 :: q)).
Proof.
  intros s. destruct (starts_with_digit s) eqn:E.
  - rewrite !match_count_tail. rewrite (after_comma_digit s E).
    destruct (span_digits_spec s) as (_ & _ & Ht).
    set (t := snd (span_digits s)) in *.
    destruct (starts_with_comma t) eqn:Ec.
    + intros _. now rewrite (q_comma t Ec).
    + rewrite (after_comma_other t Ec), (span_digits_stop t Ht). simpl.
      destruct (match_here q t); [discriminate|reflexivity].
  - now rewrite span_digits_stop.
Qed.

Lemma match_range s :
  match_here (Digits1 :: OptLit "," :: Digits0 :: q) s =
  match range_fields s with
  | Some (g1, g2, t) =>
      option_map (fun gs => g1 :: g2 :: gs) (match_here q t)
  | None => None
  end.
Proof.
  rewrite match_digits1 by exact absorbs_count_tail.
  unfold range_fields. destruct (span_digits s) as [g1 t1]. simpl fst. simpl snd.
  destruct g1 as [|c g1]; [reflexivity|].
  rewrite match_count_tail.
  destruct (span_digits (after_comma t1)) as [g2 t2]. simpl.
  now destruct (match_here q t2).
Qed.

End CountTail.

Lemma match_lits p q : forall s,
  match_here (lits p ++ q)%list s =
  match strip_prefix p s with
  | Some r => match_here q r
  | None => None
  end.
Proof.
  induction p as [|c p IH]; intros s; [reflexivity|].
  destruct s as [|c' s]; simpl; [reflexivity|].
  destruct (Ascii.eqb c' c); [apply IH|reflexivity].
Qed.

Lemma lit_fails_digit c q s :
  is_digit c = false -> starts_with_digit s = true ->
  match_here (Lit c :: q) s = None.
Proof.
  intros Hc Hs. destruct s as [|c' r]; simpl in *; [reflexivity|].
  destruct (Ascii.eqb c' c) eqn:E; [|reflexivity].
  apply Ascii.eqb_eq in E. congruence.
Qed.

Lemma lit_fails_comma c q s :
  Ascii.eqb c "," = false -> starts_with_comma s = true ->
  match_here (Lit c :: q) s = None.
Proof.
  intros Hc Hs. destruct s as [|c' r]; simpl in *; [reflexivity|].
  destruct (Ascii.eqb c' c) eqn:E; [|reflexivity].
  apply Ascii.eqb_eq in E. congruence.
Qed.

(** On the header pattern, the backtracking matcher finds what a single
    pass from left to right reads off. *)
Lemma match_here_hunk_header s : match_here hunk_header s = header_fields s.
Proof.
  unfold hunk_header, header_fields.
  rewrite match_lits. destruct (strip_prefix "@@ -" s) as [s1|]; [|reflexivity].
  change ([Digits1; OptLit ","; Digits0] ++ ?q)%list with
    (Digits1 :: OptLit "," :: Digits0 :: q).
  rewrite match_range;
    [|intros; now apply lit_fails_digit|intros; now apply lit_fails_comma].
  destruct (range_fields s1) as [[[g1 g2] s2]|]; [|reflexivity].
  rewrite match_lits. destruct (strip_prefix " +" s2) as [s3|]; [|reflexivity].
  change ([Digits1; OptLit ","; Digits0] ++ ?q)%list with
    (Digits1 :: OptLit "," :: Digits0 :: q).
  rewrite match_range;
    [|intros; now apply lit_fails_digit|intros; now apply lit_fails_comma].
  destruct (range_fields s3) as [[[g3 g4] s4]|]; [|reflexivity].
  rewrite <- (app_nil_r (lits " @@")), match_lits.
  now destruct (strip_prefix " @@" s4).
Qed.

End MatcherFacts.

Section HeaderFacts.

Local Open Scope string_scope.

Lemma number_nonempty d : number d -> exists c r, d = String c r.
Proof.
  intros [Hd _]. destruct d as [|c r]; [congruence|eauto].
Qed.

Lemma range_text_loose r s c :
  range_text r s c ->
  loose_range_text r s (match c with Some d => d | None => "" end).
Proof.
  intros [s0 Hs|s0 c0 Hs Hc]; constructor; try assumption. apply Hc.
Qed.

Lemma range_fields_loose r g c t :
  loose_range_text r g c ->
  starts_with_digit t = false -> starts_with_comma t = false ->
  range_fields (r ++ t) = Some (g, c, t).
Proof.
  intros [s Hs|s d Hs Hd] Ht Hc; unfold range_fields.
  - destruct (number_nonempty s Hs) as (x & y & ->).
    rewrite span_digits_app; [|apply Hs|exact Ht].
    now rewrite (after_comma_other t Hc), (span_digits_stop t Ht).
  - destruct (number_nonempty s Hs) as (x & y & ->).
    rewrite !append_assoc. rewrite span_digits_app; [|apply Hs|reflexivity].
    simpl after_comma. now rewrite span_digits_app.
Qed.

Lemma range_fields_spec s g1 g2 t :
  range_fields s = Some (g1, g2, t) ->
  exists r, loose_range_text r g1 g2 /\ s = r ++ t.
Proof.
  unfold range_fields. destruct (span_digits_spec s) as (Hs & Hg & Ht).
  destruct (span_digits s) as [G1 T1]. simpl in Hs, Hg, Ht.
  destruct G1 as [|x G1]; [discriminate|].
  destruct (span_digits_spec (after_comma T1)) as (Hs2 & Hg2 & _).
  destruct (span_digits (after_comma T1)) as [G2 T2] eqn:E2. simpl in Hs2, Hg2.
  intros H. injection H as <- <- <-.
  assert (Hnum : number (String x G1)) by (split; [discriminate|exact Hg]).
  destruct (starts_with_comma T1) eqn:Ec.
  - destruct T1 as [|y T1]; [discriminate|]. simpl in Ec, Hs2.
    rewrite Ec in Hs2. apply Ascii.eqb_eq in Ec. subst y.
    exists (String x G1 ++ "," ++ G2). split; [now constructor|].
    rewrite Hs, Hs2, !append_assoc. reflexivity.
  - rewrite (after_comma_other T1 Ec), (span_digits_stop T1 Ht) in E2.
    injection E2 as <- <-. exists (String x G1). split; [now constructor|].
    exact Hs.
Qed.

(** A line that starts with a header, the count after a comma possibly
    missing, has the four groups of that header. *)
Lemma header_fields_loose t s c :
  header_at t s c -> exists s' c', header_fields t = Some [s; c; s'; c'].
Proof.
  intros (old & new & s' & c' & post & Hold & Hnew & ->).
  exists s', c'. unfold header_fields, header_text.
  rewrite !append_assoc. rewrite strip_prefix_app.
  rewrite (range_fields_loose old s c) by (assumption || reflexivity).
  rewrite strip_prefix_app.
  rewrite (range_fields_loose new s' c') by (assumption || reflexivity).
  now rewrite strip_prefix_app.
Qed.

Lemma header_fields_spec t gs :
  header_fields t = Some gs ->
  exists s c s' c', gs = [s; c; s'; c'] /\ header_at t s c.
Proof.
  unfold header_fields.
  destruct (strip_prefix "@@ -" t) as [s1|] eqn:E1; [|discriminate].
  destruct (range_fields s1) as [[[g1 g2] s2]|] eqn:E2; [|discriminate].
  destruct (strip_prefix " +" s2) as [s3|] eqn:E3; [|discriminate].
  destruct (range_fields s3) as [[[g3 g4] s4]|] eqn:E4; [|discriminate].
  destruct (strip_prefix " @@" s4) as [post|] eqn:E5; [|discriminate].
  intros H. injection H as <-.
  apply strip_prefix_spec in E1, E3, E5.
  apply range_fields_spec in E2, E4.
  destruct E2 as (old & Hold & ->). destruct E4 as (new & Hnew & ->).
  exists g1, g2, g3, g4. split; [reflexivity|].
  exists old, new, g3, g4, post. repeat split; try assumption.
  subst. unfold header_text. now rewrite !append_assoc.
Qed.

Lemma strict_header_loose t s c :
  strict_header_at t s c ->
  header_at t s (match c with Some d => d | None => "" end).
Proof.
  intros (old & new & s' & c' & post & Hold & Hnew & ->).
  exists old, new, s', (match c' with Some d => d | None => "" end), post.
  repeat split; try reflexivity; now apply range_text_loose.
Qed.

Lemma header_at_startswith t s c : header_at t s c -> startswith t "@@" = true.
Proof.
  intros (old & new & s' & c' & post & _ & _ & ->). reflexivity.
Qed.

Lemma suffixes_In s : forall pre t, s = pre ++ t -> In t (suffixes s).
Proof.
  induction s as [|c r IH]; intros pre t H.
  - destruct pre; [|discriminate]. simpl in H. subst t. now left.
  - destruct pre as [|c' pre]; simpl in H.
    + subst t. now left.
    + injection H as -> H. right. now apply (IH pre).
Qed.

(** The search returns a match of the pattern at some place of the string,
    and returns one whenever some place has one. *)
Lemma re_search_here p s gs :
  match_here p s = Some gs -> re_search p s = Some gs.
Proof.
  intros H. destruct s; simpl; now rewrite H.
Qed.

Lemma re_search_sound p s : forall gs,
  re_search p s = Some gs ->
  exists pre t,
    s = pre ++ t /\ match_here p t = Some gs /\
    forall pre' t', s = pre' ++ t' ->
      (String.length pre' < String.length pre)%nat -> match_here p t' = None.
Proof.
  induction s as [|c r IH]; intros gs; simpl.
  - destruct (match_here p "") eqn:E; [|discriminate].
    intros H. injection H as <-. exists "", "".
    repeat split; auto. simpl. intros; lia.
  - destruct (match_here p (String c r)) eqn:E.
    + intros H. injection H as <-. exists "", (String c r).
      repeat split; auto. simpl. intros; lia.
    + intros H. apply IH in H. destruct H as (pre & t & -> & Ht & Hleft).
      exists (String c pre), t. repeat split; auto.
      intros pre' t' Hs Hlen. destruct pre' as [|c' pre']; simpl in Hs.
      * now subst t'.
      * injection Hs as _ Hs. apply (Hleft pre' t' Hs). simpl in Hlen. lia.
Qed.

Lemma re_search_none p : forall pre t,
  re_search p (pre ++ t) = None -> match_here p t = None.
Proof.
  induction pre as [|c pre IH]; intros t; simpl.
  - destruct t; simpl; destruct (match_here p _); congruence.
  - destruct (match_here p (String c (pre ++ t))); [discriminate|]. apply IH.
Qed.

End HeaderFacts.

Section ParserFacts.

Local Open Scope string_scope.

Lemma parse_line_alone hunks line :
  parse_line hunks line = (hunks ++ parse_line [] line)%list.
Proof.
  unfold parse_line. destruct (startswith line "@@").
  - destruct (re_search hunk_header line); [reflexivity|].
    now rewrite app_nil_r.
  - now rewrite app_nil_r.
Qed.

(** The loop over the lines appends, line after line, what each line gives
    on its own. *)
Lemma parse_loop lines : forall hunks,
  fold_left parse_line lines hunks =
  (hunks ++ flat_map (parse_line []) lines)%list.
Proof.
  induction lines as [|line lines IH]; intros hunks; simpl.
  - now rewrite app_nil_r.
  - rewrite IH, (parse_line_alone hunks line), <- app_assoc. reflexivity.
Qed.

Lemma parse_line_cases line :
  parse_line [] line =
  if startswith line "@@" then
    match re_search hunk_header line with
    | Some m => [header_hunk (group m 1) (group m 2)]
    | None => []
    end
  else [].
Proof. reflexivity. Qed.

Lemma parse_line_header t s c :
  header_at t s c -> parse_line [] t = [header_hunk s c].
Proof.
  intros H. rewrite parse_line_cases, (header_at_startswith t s c H).
  destruct (header_fields_loose t s c H) as (s' & c' & Hf).
  rewrite <- match_here_hunk_header in Hf.
  now rewrite (re_search_here _ _ _ Hf).
Qed.

Lemma parse_line_strict_header t s c :
  strict_header_at t s c ->
  parse_line [] t =
  [(int_of s, int_of s + match c with Some d => int_of d | None => 1 end)].
Proof.
  intros H. rewrite (parse_line_header t s _ (strict_header_loose t s c H)).
  destruct H as (old & new & s' & c' & post & Hold & _ & _).
  destruct c as [d|]; [|reflexivity].
  inversion Hold as [|s0 c0 Hs Hd]; subst.
  destruct (number_nonempty d Hd) as (x & y & ->). reflexivity.
Qed.

Lemma parse_line_In line h :
  In h (parse_line [] line) ->
  parse_line [] line = [h] /\
  startswith line "@@" = true /\
  exists pre t s c,
    line = pre ++ t /\ header_at t s c /\ h = header_hunk s c /\
    forall pre' t' s0 c0, line = pre' ++ t' ->
      (String.length pre' < String.length pre)%nat -> ~ header_at t' s0 c0.
Proof.
  rewrite parse_line_cases.
  destruct (startswith line "@@"); [|intros []].
  destruct (re_search hunk_header line) as [m|] eqn:E; [|intros []].
  intros [<-|[]]. split; [reflexivity|]. split; [reflexivity|].
  apply re_search_sound in E. destruct E as (pre & t & -> & Hm & Hleft).
  rewrite match_here_hunk_header in Hm.
  destruct (header_fields_spec t m Hm) as (s & c & s' & c' & -> & Hat).
  exists pre, t, s, c. repeat split; try assumption.
  intros pre' t' s0 c0 Hs Hlen Hat'.
  specialize (Hleft pre' t' Hs Hlen). rewrite match_here_hunk_header in Hleft.
  destruct (header_fields_loose t' s0 c0 Hat') as (? & ? & Hf). congruence.
Qed.

Lemma parse_line_none line :
  startswith line "@@" = false \/ ~ has_header line -> parse_line [] line = [].
Proof.
  intros H. destruct (parse_line [] line) as [|h l] eqn:E; [reflexivity|].
  destruct (parse_line_In line h) as (_ & Hsw & pre & t & s & c & Hl & Hat & _).
  { rewrite E. now left. }
  destruct H as [H|H]; [congruence|].
  exfalso. apply H. now exists pre, t, s, c.
Qed.

Lemma parse_patch_hunks_flat_map text :
  parse_patch_hunks (Some text) = flat_map (parse_line []) (split_lines text).
Proof.
  destruct text as [|c r]; [reflexivity|].
  unfold parse_patch_hunks. now rewrite parse_loop.
Qed.

End ParserFacts.

(** *** The parser with its exception *)

Section FallibleParserFacts.

Local Open Scope string_scope.

Lemma exception_unique (e e' : exception) : e = e'.
Proof. now destruct e, e'. Qed.

Lemma int_convertible d :
  Fallible.int d = if convertible d then Returns (int_of d) else Raises ValueError.
Proof.
  unfold Fallible.int, convertible. rewrite Z.leb_antisym.
  now destruct (int_max_str_digits <? Z.of_nat (String.length d))%Z.
Qed.

(** What a line gives on its own, by the groups of the match. *)
Lemma fallible_parse_line_cases line :
  Fallible.parse_line [] line =
  if startswith line "@@" then
    match re_search hunk_header line with
    | Some m => header_outcome (group m 1) (group m 2)
    | None => Returns []
    end
  else Returns [].
Proof.
  unfold Fallible.parse_line, header_outcome.
  destruct (startswith line "@@"); [|reflexivity].
  destruct (re_search hunk_header line) as [m|]; [|reflexivity].
  rewrite int_convertible.
  destruct (convertible (group m 1)); [|reflexivity].
  cbn [bind andb]. destruct (group m 2) as [|a g]; [reflexivity|].
  rewrite int_convertible.
  now destruct (convertible (String a g)).
Qed.

Lemma fallible_parse_line_alone hunks line :
  Fallible.parse_line hunks line =
  let* l := Fallible.parse_line [] line in Returns (hunks ++ l)%list.
Proof.
  unfold Fallible.parse_line.
  destruct (startswith line "@@"); [|cbn [bind]; now rewrite app_nil_r].
  destruct (re_search hunk_header line) as [m|];
    [|cbn [bind]; now rewrite app_nil_r].
  destruct (Fallible.int (group m 1)) as [old_start|e]; [|reflexivity].
  cbn [bind].
  destruct (match group m 2 with
            | "" => Returns 1
            | String a g => Fallible.int (String a g)
            end) as [old_count|e]; reflexivity.
Qed.

(** The loop over the lines gives, line after line, what each line gives on
    its own, up to the first line that raises. *)
Lemma fallible_parse_loop lines : forall hunks,
  for_each Fallible.parse_line lines hunks =
  let* l := concat_outcomes (map (Fallible.parse_line []) lines) in
  Returns (hunks ++ l)%list.
Proof.
  induction lines as [|line lines IH]; intros hunks; cbn [for_each map concat_outcomes].
  - cbn [bind]. now rewrite app_nil_r.
  - rewrite (fallible_parse_line_alone hunks line).
    destruct (Fallible.parse_line [] line) as [l|e]; [|reflexivity].
    cbn [bind]. rewrite IH.
    destruct (concat_outcomes (map (Fallible.parse_line []) lines)) as [l'|e];
      [|reflexivity].
    cbn [bind]. now rewrite app_assoc.
Qed.

Lemma fallible_parse_patch_hunks_lines text :
  Fallible.parse_patch_hunks (Some text) =
  concat_outcomes (map (Fallible.parse_line []) (split_lines text)).
Proof.
  destruct text as [|c r]; [reflexivity|].
  unfold Fallible.parse_patch_hunks. rewrite fallible_parse_loop.
  now destruct (concat_outcomes _).
Qed.

Lemma concat_outcomes_returns {A} (l : list (outcome (list A))) : forall r,
  concat_outcomes l = Returns r ->
  exists ls, l = map Returns ls /\ r = List.concat ls.
Proof.
  induction l as [|x l IH]; intros r; cbn [concat_outcomes].
  - intros H. injection H as <-. now exists [].
  - destruct x as [a|e]; [|discriminate]. cbn [bind].
    destruct (concat_outcomes l) as [b|e]; [|discriminate]. cbn [bind].
    intros H. injection H as <-.
    destruct (IH b eq_refl) as (ls & -> & ->). now exists (a :: ls).
Qed.

Lemma concat_outcomes_raises {A} (l : list (outcome (list A))) e :
  concat_outcomes l = Raises e <-> In (Raises e) l.
Proof.
  induction l as [|x l IH]; cbn [concat_outcomes].
  - split; [discriminate|intros []].
  - destruct x as [a|e']; cbn [bind].
    + destruct (concat_outcomes l) as [b|e'] eqn:E; cbn [bind].
      * split; [discriminate|]. intros [H|H]; [discriminate|].
        apply IH in H. discriminate.
      * split.
        -- intros H. right. apply IH. congruence.
        -- intros _. f_equal. apply exception_unique.
    + split; [intros _; left|intros _]; f_equal; apply exception_unique.
Qed.

(** A match of the pattern at a place before which no place has one is the
    match that the search returns. *)
Lemma re_search_complete p t gs : forall pre,
  match_here p t = Some gs ->
  (forall pre' t', pre ++ t = pre' ++ t' ->
     (String.length pre' < String.length pre)%nat -> match_here p t' = None) ->
  re_search p (pre ++ t) = Some gs.
Proof.
  induction pre as [|a pre IH]; intros Hm Hleft.
  - now apply re_search_here.
  - cbn [append re_search].
    rewrite (Hleft "" (String a (pre ++ t))) by (simpl; auto; lia).
    apply IH; [exact Hm|].
    intros pre' t' Hs Hlen. apply (Hleft (String a pre') t').
    + simpl. now rewrite Hs.
    + simpl. lia.
Qed.

Lemma header_at_groups t s c :
  header_at t s c ->
  exists m, match_here hunk_header t = Some m /\ group m 1 = s /\ group m 2 = c.
Proof.
  intros H. destruct (header_fields_loose t s c H) as (s' & c' & Hf).
  rewrite match_here_hunk_header. now exists [s; c; s'; c'].
Qed.

Lemma match_here_header_at t m :
  match_here hunk_header t = Some m -> header_at t (group m 1) (group m 2).
Proof.
  rewrite match_here_hunk_header. intros H.
  now destruct (header_fields_spec t m H) as (s & c & s' & c' & -> & Hat).
Qed.

(** The search finds the leftmost header, and only that. *)
Lemma re_search_leftmost line m :
  re_search hunk_header line = Some m ->
  leftmost_header line (group m 1) (group m 2).
Proof.
  intros E. apply re_search_sound in E.
  destruct E as (pre & t & -> & Hm & Hleft).
  exists pre, t. split; [reflexivity|]. split; [now apply match_here_header_at|].
  intros pre' t' s0 c0 Hs Hlen Hat.
  destruct (header_at_groups t' s0 c0 Hat) as (m' & Hm' & _).
  rewrite (Hleft pre' t' Hs Hlen) in Hm'. discriminate.
Qed.

Lemma leftmost_header_search line s c :
  leftmost_header line s c ->
  exists m,
    re_search hunk_header line = Some m /\ group m 1 = s /\ group m 2 = c.
Proof.
  intros (pre & t & -> & Hat & Hleft).
  destruct (header_at_groups t s c Hat) as (m & Hm & Hs & Hc).
  exists m. split; [|now split].
  apply re_search_complete; [exact Hm|].
  intros pre' t' Heq Hlen.
  destruct (match_here hunk_header t') as [m'|] eqn:E; [|reflexivity].
  exfalso. apply (Hleft pre' t' _ _ Heq Hlen (match_here_header_at t' m' E)).
Qed.

Lemma has_header_leftmost line :
  has_header line -> exists s c, leftmost_header line s c.
Proof.
  intros (pre & t & s & c & -> & Hat).
  destruct (header_at_groups t s c Hat) as (m & Hm & _).
  destruct (re_search hunk_header (pre ++ t)) as [m'|] eqn:E.
  - exists (group m' 1), (group m' 2). now apply re_search_leftmost.
  - apply re_search_none in E. congruence.
Qed.

Lemma leftmost_header_has line s c : leftmost_header line s c -> has_header line.
Proof. intros (pre & t & Hl & Hat & _). now exists pre, t, s, c. Qed.

Lemma header_at_leftmost t s c : header_at t s c -> leftmost_header t s c.
Proof.
  intros H. exists "", t. split; [reflexivity|]. split; [exact H|].
  simpl. intros; lia.
Qed.

Lemma fallible_parse_line_leftmost line s c :
  startswith line "@@" = true -> leftmost_header line s c ->
  Fallible.parse_line [] line = header_outcome s c.
Proof.
  intros Hsw H. rewrite fallible_parse_line_cases, Hsw.
  destruct (leftmost_header_search line s c H) as (m & -> & <- & <-).
  reflexivity.
Qed.

Lemma fallible_parse_line_none line :
  startswith line "@@" = false \/ ~ has_header line ->
  Fallible.parse_line [] line = Returns [].
Proof.
  intros H. rewrite fallible_parse_line_cases.
  destruct (startswith line "@@"); [|reflexivity].
  destruct (re_search hunk_header line) as [m|] eqn:E; [|reflexivity].
  destruct H as [H|H]; [discriminate|].
  exfalso. apply H. apply re_search_leftmost in E.
  now apply (leftmost_header_has line _ _ E).
Qed.

Lemma fallible_parse_line_header t s c :
  header_at t s c -> Fallible.parse_line [] t = header_outcome s c.
Proof.
  intros H. apply fallible_parse_line_leftmost.
  - now apply (header_at_startswith t s c).
  - now apply header_at_leftmost.
Qed.

Lemma fallible_parse_line_returns line l :
  Fallible.parse_line [] line = Returns l ->
  l = parse_line [] line /\
  forall h, In h l ->
    l = [h] /\ startswith line "@@" = true /\
    exists s c, leftmost_header line s c /\ h = header_hunk s c.
Proof.
  rewrite fallible_parse_line_cases, parse_line_cases.
  destruct (startswith line "@@");
    [|intros H; injection H as <-; split; [reflexivity|intros h []]].
  destruct (re_search hunk_header line) as [m|] eqn:E;
    [|intros H; injection H as <-; split; [reflexivity|intros h []]].
  unfold header_outcome. destruct (_ && _); [|discriminate].
  intros H. injection H as <-. split; [reflexivity|].
  intros h [<-|[]]. split; [reflexivity|]. split; [reflexivity|].
  exists (group m 1), (group m 2). split; [|reflexivity].
  now apply re_search_leftmost.
Qed.

Lemma fallible_parse_line_raises line e :
  Fallible.parse_line [] line = Raises e <->
  startswith line "@@" = true /\
  exists s c, leftmost_header line s c /\ convertible s && convertible c = false.
Proof.
  split.
  - rewrite fallible_parse_line_cases.
    destruct (startswith line "@@"); [|discriminate].
    destruct (re_search hunk_header line) as [m|] eqn:E; [|discriminate].
    unfold header_outcome.
    destruct (convertible (group m 1) && convertible (group m 2)) eqn:Ec;
      [discriminate|].
    intros _. split; [reflexivity|].
    exists (group m 1), (group m 2). split; [|exact Ec].
    now apply re_search_leftmost.
  - intros (Hsw & s & c & Hl & Hc).
    rewrite (fallible_parse_line_leftmost line s c Hsw Hl).
    unfold header_outcome. rewrite Hc. f_equal. apply exception_unique.
Qed.

(** A call of the parser that returns returns what [parse_patch_hunks]
    gives. *)
Lemma fallible_parse_patch_hunks_returns patch hunks :
  Fallible.parse_patch_hunks patch = Returns hunks ->
  hunks = parse_patch_hunks patch.
Proof.
  destruct patch as [text|]; [|intros H; now injection H as <-].
  rewrite fallible_parse_patch_hunks_lines, parse_patch_hunks_flat_map.
  revert hunks. induction (split_lines text) as [|line lines IH]; intros hunks.
  - intros H. now injection H as <-.
  - cbn [map concat_outcomes flat_map].
    destruct (Fallible.parse_line [] line) as [l|e] eqn:El; [|discriminate].
    cbn [bind].
    destruct (concat_outcomes (map (Fallible.parse_line []) lines)) as [b|e];
      [|discriminate].
    cbn [bind]. intros H. injection H as <-.
    apply fallible_parse_line_returns in El. destruct El as [-> _].
    now rewrite (IH b eq_refl).
Qed.

(** The parser raises when a line of the patch does. *)
Lemma fallible_parse_patch_hunks_raises text e :
  Fallible.parse_patch_hunks (Some text) = Raises e <->
  exists line,
    In line (split_lines text) /\ Fallible.parse_line [] line = Raises e.
Proof.
  rewrite fallible_parse_patch_hunks_lines, concat_outcomes_raises, in_map_iff.
  split; intros (line & H1 & H2); exists line; auto.
Qed.

(** The header with a number of 4301 digits. *)
Lemma long_header_at : header_at long_header long_number "".
Proof.
  exists long_number, "1", "1", "", "".
  split; [|split].
  - apply loose_start. split; [vm_compute; discriminate|vm_compute; reflexivity].
  - apply loose_start. split; [discriminate|reflexivity].
  - vm_compute. reflexivity.
Qed.

Lemma long_header_raises :
  Fallible.parse_patch_hunks (Some long_header) = Raises ValueError.
Proof.
  apply fallible_parse_patch_hunks_raises. exists long_header. split.
  - vm_compute. now left.
  - rewrite (fallible_parse_line_header _ _ _ long_header_at).
    vm_compute. reflexivity.
Qed.

End FallibleParserFacts.


(** C2, as the code has it.  No patch and the empty patch give no hunks and
    raise nothing.  Otherwise the parser gives, line after line of the
    patch, what each line gives on its own, up to the first line that
    raises.  A line that does not start with [@@], or that has nowhere in
    it a header [@@ -start[,[count]] +start[,[count]] @@] (a count may be
    missing with or without its comma), gives nothing.  A line that has
    such a header has a leftmost one; when the line starts with [@@] it
    gives the hunk [(start, start + count)] of its leftmost header, the
    count being 1 when missing, if [int] converts the start and the count,
    and it raises [ValueError] if one of them has more digits than [int]
    converts.  So does in particular a line that starts with a header, and
    a line that starts with a header in the range syntax
    [@@ -start[,count] +start[,count] @@].  A line that gives a hunk gives
    that one hunk only, starts with [@@], and the hunk is the one of its
    leftmost header. *)
Theorem parse_patch_hunks_lines (patch : option string) :
  (truthy patch = false -> Fallible.parse_patch_hunks patch = Returns []) /\
  (forall text, patch = Some text ->
     Fallible.parse_patch_hunks patch =
     concat_outcomes (map (Fallible.parse_line []) (split_lines text))) /\
  (forall line,
     startswith line "@@" = false \/ ~ has_header line ->
     Fallible.parse_line [] line = Returns []) /\
  (forall line, has_header line -> exists s c, leftmost_header line s c) /\
  (forall line s c,
     startswith line "@@" = true -> leftmost_header line s c ->
     Fallible.parse_line [] line =
     if convertible s && convertible c
     then Returns [header_hunk s c]
     else Raises ValueError) /\
  (forall t s c, header_at t s c ->
     Fallible.parse_line [] t =
     if convertible s && convertible c
     then Returns [header_hunk s c]
     else Raises ValueError) /\
  (forall t s c, strict_header_at t s c ->
     convertible s = true ->
     (forall d, c = Some d -> convertible d = true) ->
     Fallible.parse_line [] t =
     Returns
       [(int_of s,
         int_of s + match c with Some d => int_of d | None => 1 end)]) /\
  (forall line l, Fallible.parse_line [] line = Returns l ->
     forall h, In h l ->
       l = [h] /\ startswith line "@@" = true /\
       exists s c, leftmost_header line s c /\ h = header_hunk s c).
Proof.
  split; [|split; [|split; [|split; [|split; [|split; [|split]]]]]].
  - destruct patch as [[|c r]|]; simpl; try reflexivity. discriminate.
  - intros text ->. apply fallible_parse_patch_hunks_lines.
  - apply fallible_parse_line_none.
  - apply has_header_leftmost.
  - apply fallible_parse_line_leftmost.
  - apply fallible_parse_line_header.
  - intros t s c H Hs Hc.
    rewrite (fallible_parse_line_header t s _ (strict_header_loose t s c H)).
    unfold header_outcome. rewrite Hs.
    destruct H as (old & new & s' & c' & post & Hold & _ & _).
    destruct c as [d|]; [|reflexivity].
    rewrite (Hc d eq_refl). cbn [andb].
    inversion Hold as [|s0 c0 _ Hd]; subst.
    destruct (number_nonempty d Hd) as (x & y & ->). reflexivity.
  - intros line l H. now apply fallible_parse_line_returns.
Qed.

(** A line whose header does not stand at its start. *)
Lemma parse_patch_hunks_lines_witness :
  startswith "@@@ -20,5 +21,6 @@ x" "@@" = true /\
  leftmost_header "@@@ -20,5 +21,6 @@ x" "20" "5" /\
  Fallible.parse_line [] "@@@ -20,5 +21,6 @@ x" = Returns [(20, 25)].
Proof.
  assert (Hsw : startswith "@@@ -20,5 +21,6 @@ x" "@@" = true) by reflexivity.
  assert (Hl : leftmost_header "@@@ -20,5 +21,6 @@ x" "20" "5").
  { exists "@"%string, "@@ -20,5 +21,6 @@ x"%string.
    split; [reflexivity|]. split.
    - exists "20,5"%string, "21,6"%string, "21"%string, "6"%string,
        " x"%string.
      split; [|split; [|reflexivity]].
      + apply (loose_start_comma "20" "5"); [split; [discriminate|]|];
          reflexivity.
      + apply (loose_start_comma "21" "6"); [split; [discriminate|]|];
          reflexivity.
    - intros pre' t' s0 c0 Hs Hlen Hat.
      destruct pre' as [|a pre']; [|simpl in Hlen; lia].
      simpl in Hs. subst t'.
      destruct (header_fields_loose _ _ _ Hat) as (s' & c' & Hf).
      vm_compute in Hf. discriminate. }
  split; [exact Hsw|]. split; [exact Hl|].
  exact (proj1 (proj2 (proj2 (proj2 (proj2 (parse_patch_hunks_lines None)))))
           _ _ _ Hsw Hl).
Defined.

(** C2, as it is stated, fails: the line [@@ -12, +3 @@] has a comma with no
    count after it, so it has no header in the range syntax anywhere in it,
    and yet it gives the hunk (12, 13). *)
Lemma parse_patch_hunks_comma_without_count :
  ~ (~ has_strict_header "@@ -12, +3 @@" ->
     Fallible.parse_patch_hunks (Some "@@ -12, +3 @@"%string) = Returns []).
Proof.
  intros H. enough (Hno : ~ has_strict_header "@@ -12, +3 @@").
  { specialize (H Hno). vm_compute in H. discriminate. }
  intros (pre & t & s & c & Hl & Hat).
  pose proof (strict_header_loose t s c Hat) as Hloose.
  destruct (header_fields_loose _ _ _ Hloose) as (s' & c' & Hf).
  apply suffixes_In in Hl. simpl in Hl.
  repeat (destruct Hl as [<-|Hl]; [try (vm_compute in Hf; discriminate)|]);
    [|destruct Hl].
  vm_compute in Hf. injection Hf as <- Hc <- <-.
  destruct Hat as (old & new & s' & c' & post & Hold & Hnew & Heq).
  inversion Hold as [s0 Hs|s0 c0 Hs Hc0]; subst.
  - unfold header_text in Heq. simpl in Heq. discriminate.
  - destruct Hc0 as [Hne _]. now apply Hne.
Qed.

(** It fails as well in that parsing is never aborted: a header whose old
    start has 4301 digits is a header of the pattern, and [int] raises on
    it. *)
Lemma parse_patch_hunks_long_number :
  header_at long_header long_number "" /\
  convertible long_number = false /\
  Fallible.parse_patch_hunks (Some long_header) = Raises ValueError.
Proof.
  split; [exact long_header_at|]. split; [vm_compute; reflexivity|].
  exact long_header_raises.
Qed.

(** *** Bounds of the parsed hunks *)

Lemma digit_value_nonneg c : is_digit c = true -> 0 <= digit_value c.
Proof.
  unfold is_digit, digit_value. intros H.
  apply andb_true_iff in H. destruct H as [H _].
  apply Nat.leb_le in H. lia.
Qed.

Lemma int_from_nonneg s : forall acc,
  0 <= acc -> all_digits s = true -> 0 <= int_from acc s.
Proof.
  induction s as [|c r IH]; simpl; intros acc Hacc Hs; [exact Hacc|].
  apply andb_true_iff in Hs. destruct Hs as [Hc Hr].
  apply IH; [|exact Hr]. pose proof (digit_value_nonneg c Hc). lia.
Qed.

Lemma header_hunk_bounds t s c :
  header_at t s c ->
  0 <= h_start (header_hunk s c) /\
  h_start (header_hunk s c) <= h_end (header_hunk s c).
Proof.
  intros (old & new & s' & c' & post & Hold & _ & _).
  assert (Hs : all_digits s = true /\ all_digits c = true).
  { inversion Hold as [s0 [_ Hs]|s0 c0 [_ Hs] Hc]; subst; auto. }
  destruct Hs as [Hs Hc].
  pose proof (int_from_nonneg s 0 (Z.le_refl 0) Hs) as H1.
  pose proof (int_from_nonneg c 0 (Z.le_refl 0) Hc) as H2.
  unfold header_hunk, h_start, h_end, count_value. simpl.
  fold (int_of s) in H1. fold (int_of c) in H2.
  destruct c; lia.
Qed.

Lemma parsed_hunk_shape (patch : option string) (h : hunk) :
  In h (parse_patch_hunks patch) -> parsed_shape h.
Proof.
  intros Hin.
  destruct patch as [text|]; [|destruct Hin].
  rewrite parse_patch_hunks_flat_map in Hin.
  apply in_flat_map in Hin. destruct Hin as (line & _ & Hh).
  apply parse_line_In in Hh.
  destruct Hh as (_ & _ & pre & t & s & c & _ & Hat & -> & _).
  now apply (header_hunk_bounds t).
Qed.

(** C7, as the code has it.  Every hunk that [parse_patch_hunks] returns,
    for any text, has [start >= 0] and [end >= start]. *)
Theorem parse_patch_hunks_bounds (patch : option string) (h : hunk) :
  In h (parse_patch_hunks patch) -> 0 <= h_start h /\ h_start h <= h_end h.
Proof. apply parsed_hunk_shape. Qed.

Lemma parse_patch_hunks_bounds_witness :
  In (10, 12) (parse_patch_hunks (Some "@@ -10,2 +10,3 @@"%string)) /\
  0 <= h_start (10, 12) /\ h_start (10, 12) <= h_end (10, 12).
Proof.
  assert (H : In (10, 12) (parse_patch_hunks (Some "@@ -10,2 +10,3 @@"%string)))
    by (vm_compute; auto).
  split; [exact H|].
  exact (parse_patch_hunks_bounds _ _ H).
Defined.

(** C7, as it is stated, fails: the diff of a file that is new, whose header
    is [@@ -0,0 +1,2 @@], gives the hunk (0, 0), with [start = 0] and
    [end = start]. *)
Lemma parse_patch_hunks_new_file :
  ~ (forall h,
       In h (parse_patch_hunks
               (Some ("@@ -0,0 +1,2 @@" ++ String newline "+a" ++
                      String newline "+b")%string)) ->
       1 <= h_start h /\ h_start h < h_end h).
Proof.
  intros H. destruct (H (0, 0)) as [H1 _].
  - vm_compute. auto.
  - simpl in H1. lia.
Qed.

(** ** Properties of the materializer *)

Section LoopFacts.

Context {A B : Type}.

Lemma enumerate_nth_error (l : list A) : forall (i : Z) (n : nat),
  nth_error (enumerate i l) n =
  option_map (fun x => (i + Z.of_nat n, x)) (nth_error l n).
Proof.
  induction l as [|x l IH]; intros i n.
  - now destruct n.
  - destruct n as [|n]; simpl.
    + now rewrite Z.add_0_r.
    + rewrite IH. destruct (nth_error l n); simpl; [|reflexivity].
      do 2 f_equal. lia.
Qed.

Lemma enumerate_length (l : list A) : forall i, length (enumerate i l) = length l.
Proof.
  induction l as [|x l IH]; intros i; simpl; [reflexivity|now rewrite IH].
Qed.

(** A loop that appends one element in each round builds the list of these
    elements. *)
Lemma append_loop (f : A -> B) (l : list A) : forall acc,
  fold_left (fun acc x => acc ++ [f x]) l acc = acc ++ map f l.
Proof.
  induction l as [|x l IH]; intros acc; simpl.
  - now rewrite app_nil_r.
  - now rewrite IH, <- app_assoc.
Qed.

End LoopFacts.

Section MaterializerFacts.

Variable r : file_record.
Variables context_before context_after max_gap : Z.

Let hunks := parse_patch_hunks (patch r).
Let merged_hunks := merge_close_hunks hunks max_gap.
Let before_lines := lines_of (before_content r).
Let after_lines := after_lines_of r.
Let chunks := add_editable_region_markers r context_before context_after max_gap.

Lemma chunkable_false :
  chunkable r = false -> chunks = [not_chunkable r].
Proof.
  unfold chunkable, chunks, add_editable_region_markers.
  destruct (truthy (patch r)); [|reflexivity].
  destruct (truthy (before_content r)); [|reflexivity]. simpl.
  destruct (parse_patch_hunks (patch r)); [reflexivity|discriminate].
Qed.

Lemma chunkable_true :
  chunkable r = true ->
  chunks =
  map (fun ih => make_chunk r context_before context_after
                            before_lines after_lines
                            (Z.of_nat (length merged_hunks)) (fst ih) (snd ih))
      (enumerate 0 merged_hunks).
Proof.
  unfold chunkable, chunks, add_editable_region_markers.
  unfold merged_hunks, hunks.
  destruct (truthy (patch r)); [|discriminate].
  destruct (truthy (before_content r)); [|discriminate]. simpl.
  destruct (parse_patch_hunks (patch r)) as [|h hs] eqn:E; [discriminate|].
  intros _. now rewrite append_loop.
Qed.

(** Chunk [i] of a chunked record is the chunk of merged region [i]. *)
Lemma chunks_nth_error (i : nat) :
  chunkable r = true ->
  nth_error chunks i =
  option_map (make_chunk r context_before context_after
                         before_lines after_lines
                         (Z.of_nat (length merged_hunks)) (Z.of_nat i))
             (nth_error merged_hunks i).
Proof.
  intros Hc. rewrite (chunkable_true Hc), nth_error_map, enumerate_nth_error.
  now destruct (nth_error merged_hunks i).
Qed.

Lemma chunks_length :
  chunkable r = true -> length chunks = length merged_hunks.
Proof.
  intros Hc. now rewrite (chunkable_true Hc), length_map, enumerate_length.
Qed.

End MaterializerFacts.

(** *** Region bounds *)

(** Every chunk of a record with a patch and a content before the change is
    the chunk of the merged region at its position, unless no line of the
    patch gives a hunk. *)
Lemma chunk_nth_cases (r : file_record)
    (context_before context_after max_gap : Z) (i : nat) (chunk : file_record) :
  truthy (patch r) = true ->
  truthy (before_content r) = true ->
  nth_error
    (add_editable_region_markers r context_before context_after max_gap) i
  = Some chunk ->
  let merged := merge_close_hunks (parse_patch_hunks (patch r)) max_gap in
  (parse_patch_hunks (patch r) = [] /\ chunk = not_chunkable r) \/
  (exists h,
     nth_error merged i = Some h /\
     chunk = make_chunk r context_before context_after
                        (lines_of (before_content r)) (after_lines_of r)
                        (Z.of_nat (length merged)) (Z.of_nat i) h).
Proof.
  intros Hp Hb Hi merged.
  destruct (chunkable r) eqn:Hc.
  - right. rewrite (chunks_nth_error r _ _ _ i Hc) in Hi.
    fold merged in Hi. destruct (nth_error merged i) as [h|]; [|discriminate].
    injection Hi as <-. exists h. auto.
  - left. rewrite (chunkable_false r _ _ _ Hc) in Hi.
    unfold chunkable in Hc. rewrite Hp, Hb in Hc. simpl in Hc.
    destruct (parse_patch_hunks (patch r)); [|discriminate].
    split; [reflexivity|].
    destruct i as [|[|i]]; simpl in Hi; congruence.
Qed.

(** C3.  For a record with a non-empty patch and a non-empty content before
    the change, chunk [i] is the chunk of merged region [i], and its bounds
    are [max(1, start - context_before)] and
    [min(L, end + context_after)], [L] being the number of lines before the
    change; so the first is at least 1 and the second at most [L].  (The
    only chunk with no region is the one of a patch in which no line gives
    a hunk.) *)
Theorem chunk_region_bounds (r : file_record)
    (context_before context_after max_gap : Z) (i : nat) (chunk : file_record) :
  truthy (patch r) = true ->
  truthy (before_content r) = true ->
  nth_error
    (add_editable_region_markers r context_before context_after max_gap) i
  = Some chunk ->
  let L := line_count (before_content r) in
  let merged := merge_close_hunks (parse_patch_hunks (patch r)) max_gap in
  (parse_patch_hunks (patch r) = [] /\ chunk = not_chunkable r) \/
  (exists h,
     nth_error merged i = Some h /\
     editable_region_start chunk = Some (Z.max 1 (h_start h - context_before)) /\
     editable_region_end chunk = Some (Z.min L (h_end h + context_after)) /\
     1 <= Z.max 1 (h_start h - context_before) /\
     Z.min L (h_end h + context_after) <= L).
Proof.
  intros Hp Hb Hi L merged.
  destruct (chunk_nth_cases r context_before context_after max_gap i chunk
              Hp Hb Hi) as [Hno|(h & Hh & ->)]; [now left|right].
  exists h. destruct h as [hs he].
  repeat split; try assumption; try reflexivity; unfold L, line_count; lia.
Qed.

Lemma chunk_region_bounds_witness :
  truthy (patch changed_file) = true /\
  truthy (before_content changed_file) = true /\
  nth_error (add_editable_region_markers changed_file 1 5 10) 0 =
    Some (hd changed_file (add_editable_region_markers changed_file 1 5 10)) /\
  editable_region_start
    (hd changed_file (add_editable_region_markers changed_file 1 5 10)) = Some 1 /\
  editable_region_end
    (hd changed_file (add_editable_region_markers changed_file 1 5 10)) = Some 3.
Proof.
  assert (Hp : truthy (patch changed_file) = true) by reflexivity.
  assert (Hb : truthy (before_content changed_file) = true) by reflexivity.
  assert (Hi : nth_error (add_editable_region_markers changed_file 1 5 10) 0 =
               Some (hd changed_file
                       (add_editable_region_markers changed_file 1 5 10)))
    by reflexivity.
  split; [exact Hp|]. split; [exact Hb|]. split; [exact Hi|].
  destruct (chunk_region_bounds changed_file 1 5 10 0 _ Hp Hb Hi)
    as [[Hno _]|(h & Hh & Hs & He & _)].
  - vm_compute in Hno. discriminate.
  - vm_compute in Hh. injection Hh as <-. split; [exact Hs|exact He].
Defined.

(** *** The chunks of a record *)

Lemma merge_close_hunks_nonempty hunks max_gap :
  hunks <> [] -> merge_close_hunks hunks max_gap <> [].
Proof.
  intros Hne. rewrite merge_close_hunks_from.
  destruct hunks as [|h hs]; [congruence|].
  pose proof (insert_by_start_length h (sorted_by_key hs)) as Hlen.
  simpl. destruct (insert_by_start h (sorted_by_key hs)); [discriminate|].
  apply merge_from_nonempty.
Qed.

(** A call of the chunker that returns returns what
    [add_editable_region_markers] gives; it raises when the parser is
    called and raises. *)
Lemma fallible_chunker_cases (r : file_record)
    (context_before context_after max_gap : Z) :
  Fallible.add_editable_region_markers r context_before context_after max_gap =
  if negb (truthy (patch r)) || negb (truthy (before_content r))
  then Returns
         (add_editable_region_markers r context_before context_after max_gap)
  else
    match Fallible.parse_patch_hunks (patch r) with
    | Returns _ =>
        Returns
          (add_editable_region_markers r context_before context_after max_gap)
    | Raises e => Raises e
    end.
Proof.
  unfold Fallible.add_editable_region_markers, add_editable_region_markers.
  destruct (negb _ || negb _); [reflexivity|].
  destruct (Fallible.parse_patch_hunks (patch r)) as [hunks|e] eqn:E;
    [|reflexivity].
  apply fallible_parse_patch_hunks_returns in E. subst hunks. cbn [bind].
  now destruct (parse_patch_hunks (patch r)).
Qed.

Lemma chunks_not_none (r : file_record)
    (context_before context_after max_gap : Z) :
  add_editable_region_markers r context_before context_after max_gap <> [].
Proof.
  destruct (chunkable r) eqn:Hc.
  - pose proof (chunks_length r context_before context_after max_gap Hc)
      as Hlen.
    intros E. rewrite E in Hlen.
    assert (Hm : merge_close_hunks (parse_patch_hunks (patch r)) max_gap <> []).
    { apply merge_close_hunks_nonempty. unfold chunkable in Hc.
      destruct (parse_patch_hunks (patch r)); [|discriminate].
      now rewrite andb_false_r in Hc. }
    destruct (merge_close_hunks (parse_patch_hunks (patch r)) max_gap);
      [congruence|discriminate].
  - rewrite (chunkable_false r _ _ _ Hc). discriminate.
Qed.

(** C5, as the code has it.  A record with no patch, an empty patch, no
    content before the change, or an empty one has the single chunk 0 of 1
    with neither input nor target text, and so has a record whose patch
    gives no hunk.  A record with a patch and a content before the change
    whose patch gives hunks has one chunk for each merged region, numbered
    in the order of the regions, with the number of regions as its count
    and with an input text, whether or not there is a content after the
    change.  A call that returns returns at least one chunk.  The call
    raises, and then [ValueError], exactly when the record has a patch and
    a content before the change and a line of the patch starts with [@@]
    and has, in its leftmost header, an old start or an old count of more
    digits than [int] converts. *)
Theorem chunker_chunks (r : file_record)
    (context_before context_after max_gap : Z) :
  let result :=
    Fallible.add_editable_region_markers r
      context_before context_after max_gap in
  (truthy (patch r) = false \/ truthy (before_content r) = false \/
   Fallible.parse_patch_hunks (patch r) = Returns [] ->
   exists chunk,
     result = Returns [chunk] /\
     chunk_id chunk = Some 0 /\ total_chunks_in_file chunk = Some 1 /\
     model_input_text chunk = None /\ model_target_text chunk = None) /\
  (forall hunks,
     truthy (patch r) = true -> truthy (before_content r) = true ->
     Fallible.parse_patch_hunks (patch r) = Returns hunks -> hunks <> [] ->
     let merged := merge_close_hunks hunks max_gap in
     exists chunks,
       result = Returns chunks /\
       length chunks = length merged /\
       forall i h, nth_error merged i = Some h ->
         exists chunk,
           nth_error chunks i = Some chunk /\
           chunk_id chunk = Some (Z.of_nat i) /\
           total_chunks_in_file chunk = Some (Z.of_nat (length merged)) /\
           model_input_text chunk <> None) /\
  (forall chunks, result = Returns chunks -> chunks <> []) /\
  (forall e,
     result = Raises e <->
     e = ValueError /\
     truthy (patch r) = true /\ truthy (before_content r) = true /\
     exists line s c,
       In line (lines_of (patch r)) /\ startswith line "@@" = true /\
       leftmost_header line s c /\
       convertible s && convertible c = false).
Proof.
  intros result. unfold result. rewrite fallible_chunker_cases.
  split; [|split; [|split]].
  - intros H.
    assert (Hc : chunkable r = false).
    { unfold chunkable. destruct H as [-> | [-> | H]];
        [reflexivity|now rewrite andb_false_r|].
      apply fallible_parse_patch_hunks_returns in H. rewrite <- H.
      apply andb_false_r. }
    exists (not_chunkable r). split; [|now repeat split].
    rewrite (chunkable_false r _ _ _ Hc).
    destruct H as [-> | [-> | ->]];
      [reflexivity|now rewrite orb_true_r|now destruct (_ || _)].
  - cbv zeta. intros hunks Hp Hb Hparse Hne. rewrite Hp, Hb, Hparse.
    cbn [negb orb].
    pose proof (fallible_parse_patch_hunks_returns _ _ Hparse) as Hh.
    assert (Hc : chunkable r = true).
    { unfold chunkable. rewrite Hp, Hb, <- Hh. now destruct hunks. }
    eexists. split; [reflexivity|]. rewrite Hh.
    split; [now apply chunks_length|].
    intros i h Hi. rewrite (chunks_nth_error r _ _ _ i Hc), Hi. simpl.
    eexists. split; [reflexivity|].
    destruct h as [hs he]. simpl. repeat split. discriminate.
  - intros chunks H.
    assert (Hc : chunks =
                 add_editable_region_markers r
                   context_before context_after max_gap).
    { destruct (_ || _); [congruence|].
      destruct (Fallible.parse_patch_hunks (patch r)); congruence. }
    rewrite Hc. apply chunks_not_none.
  - intros e. split.
    + destruct (truthy (patch r)) eqn:Hp; [|discriminate].
      destruct (truthy (before_content r)) eqn:Hb; [|discriminate].
      cbn [negb orb].
      destruct (Fallible.parse_patch_hunks (patch r)) as [hunks|e'] eqn:E;
        [discriminate|].
      intros H. injection H as ->.
      split; [apply exception_unique|]. split; [reflexivity|].
      split; [reflexivity|].
      destruct (patch r) as [text|]; [|discriminate].
      apply fallible_parse_patch_hunks_raises in E.
      destruct E as (line & Hin & Hl).
      apply fallible_parse_line_raises in Hl.
      destruct Hl as (Hsw & s & c & Hleft & Hconv).
      now exists line, s, c.
    + intros (_ & Hp & Hb & line & s & c & Hin & Hsw & Hleft & Hconv).
      rewrite Hp, Hb. cbn [negb orb].
      destruct (patch r) as [text|]; [|discriminate].
      assert (E : Fallible.parse_patch_hunks (Some text) = Raises e).
      { apply fallible_parse_patch_hunks_raises. exists line.
        split; [exact Hin|]. apply fallible_parse_line_raises.
        split; [exact Hsw|]. now exists s, c. }
      now rewrite E.
Qed.

Lemma chunker_chunks_witness :
  truthy (patch changed_file) = true /\
  truthy (before_content changed_file) = true /\
  Fallible.parse_patch_hunks (patch changed_file) = Returns [(2, 3)] /\
  exists chunks,
    Fallible.add_editable_region_markers changed_file 1 5 10 =
      Returns chunks /\
    length chunks = length (merge_close_hunks [(2, 3)] 10).
Proof.
  assert (Hp : truthy (patch changed_file) = true) by reflexivity.
  assert (Hb : truthy (before_content changed_file) = true) by reflexivity.
  assert (Hh : Fallible.parse_patch_hunks (patch changed_file) =
               Returns [(2, 3)]) by reflexivity.
  assert (Hne : [(2, 3)] <> @nil hunk) by discriminate.
  split; [exact Hp|]. split; [exact Hb|]. split; [exact Hh|].
  destruct (proj1 (proj2 (chunker_chunks changed_file 1 5 10))
              [(2, 3)] Hp Hb Hh Hne) as (chunks & Hr & Hlen & _).
  exists chunks. split; [exact Hr|exact Hlen].
Defined.

(** C5, as it is stated, fails: the record of a removed file has no content
    after the change, and yet its chunk has an input text, the lines before
    the change standing in for the lines after it. *)
Lemma chunker_chunks_removed_file :
  ~ (after_content removed_file = None ->
     exists chunk,
       Fallible.add_editable_region_markers removed_file 1 5 10 =
         Returns [chunk] /\
       chunk_id chunk = Some 0 /\ total_chunks_in_file chunk = Some 1 /\
       model_input_text chunk = None /\ model_target_text chunk = None).
Proof.
  intros H. destruct (H eq_refl) as (chunk & Hc & _ & _ & Hin & _).
  vm_compute in Hc. injection Hc as <-. discriminate.
Qed.

(** It fails as well in that the chunker never raises: on a record whose
    patch has a header with an old start of 4301 digits, the call of [int]
    raises in the parser, and nothing catches it. *)
Lemma chunker_chunks_long_number :
  truthy (patch long_header_file) = true /\
  truthy (before_content long_header_file) = true /\
  Fallible.add_editable_region_markers long_header_file 1 5 10 =
  Raises ValueError.
Proof.
  split; [reflexivity|]. split; [reflexivity|].
  rewrite fallible_chunker_cases.
  change (patch long_header_file) with (Some long_header).
  now rewrite long_header_raises.
Qed.

(** *** Target text *)

Lemma merge_from_shape max_gap rest : forall cur,
  parsed_shape cur -> Forall parsed_shape rest ->
  Forall parsed_shape (merge_from max_gap cur rest).
Proof.
  induction rest as [|c rest IH]; intros cur Hcur Hrest; simpl.
  - now constructor.
  - inversion Hrest as [|? ? Hc Hr]; subst.
    destruct (_ <=? _).
    + apply IH; [|exact Hr]. unfold parsed_shape in *. simpl. lia.
    + constructor; [exact Hcur|now apply IH].
Qed.

Lemma merge_close_hunks_shape hunks max_gap :
  Forall parsed_shape hunks ->
  Forall parsed_shape (merge_close_hunks hunks max_gap).
Proof.
  intros H. rewrite merge_close_hunks_from.
  assert (Hs : Forall parsed_shape (sorted_by_key hunks)).
  { rewrite Forall_forall in *. intros x Hx. apply H.
    now apply sorted_by_key_In. }
  destruct (sorted_by_key hunks) as [|first rest]; [constructor|].
  inversion Hs; subst. now apply merge_from_shape.
Qed.

Lemma merged_parsed_shape patch max_gap :
  Forall parsed_shape (merge_close_hunks (parse_patch_hunks patch) max_gap).
Proof.
  apply merge_close_hunks_shape. apply Forall_forall. intros h Hh.
  now apply (parsed_hunk_shape patch).
Qed.

(** A slice between bounds that lie in the list is the run of lines between
    them. *)
Lemma py_slice_lines {A} (l : list A) (a b : Z) :
  1 <= a <= Z.of_nat (length l) -> 0 <= b <= Z.of_nat (length l) ->
  py_slice l (a - 1) b = lines_between l a b.
Proof.
  intros Ha Hb. unfold py_slice, lines_between, slice_bound.
  destruct (a - 1 <? 0) eqn:E1; [apply Z.ltb_lt in E1; lia|].
  destruct (b <? 0) eqn:E2; [apply Z.ltb_lt in E2; lia|].
  rewrite !Z.min_l by lia. f_equal. lia.
Qed.

Lemma before_lines_count (r : file_record) :
  truthy (before_content r) = true -> 1 <= line_count (before_content r).
Proof.
  unfold line_count. destruct (before_content r) as [text|]; [|discriminate].
  intros _. simpl. pose proof (split_lines_nonempty text).
  destruct (split_lines text); [congruence|]. simpl. lia.
Qed.

(** C4, as the code has it.  The lines after the change are those of the
    content after it when that content is not empty, and the lines before
    the change otherwise.  With [n] of them, the chunk of a merged region
    has a target text if and only if [region_start <= n] and
    [region_end <= n], and the text is then the lines [region_start] to
    [region_end], both included, joined with newlines; there is no target
    text otherwise. *)
Theorem chunk_target_text (r : file_record)
    (context_before context_after max_gap : Z) (i : nat) (chunk : file_record) :
  truthy (patch r) = true ->
  truthy (before_content r) = true ->
  0 <= context_after ->
  nth_error
    (add_editable_region_markers r context_before context_after max_gap) i
  = Some chunk ->
  let after_lines := after_lines_of r in
  let n := Z.of_nat (length after_lines) in
  after_lines =
    lines_of (if truthy (after_content r)
              then after_content r else before_content r) /\
  ((parse_patch_hunks (patch r) = [] /\ chunk = not_chunkable r) \/
   (exists region_start region_end,
      editable_region_start chunk = Some region_start /\
      editable_region_end chunk = Some region_end /\
      (model_target_text chunk <> None <->
       region_start <= n /\ region_end <= n) /\
      (region_start <= n -> region_end <= n ->
       model_target_text chunk =
       Some (join_lines (lines_between after_lines region_start region_end))))).
Proof.
  intros Hp Hb Hca Hi after_lines n. split.
  { unfold after_lines, after_lines_of. now destruct (truthy (after_content r)). }
  destruct (chunk_nth_cases r context_before context_after max_gap i chunk
              Hp Hb Hi) as [Hno|(h & Hh & ->)]; [now left|right].
  pose proof (merged_parsed_shape (patch r) max_gap) as Hshape.
  rewrite Forall_forall in Hshape.
  specialize (Hshape h (nth_error_In _ _ Hh)).
  pose proof (before_lines_count r Hb) as HL.
  destruct h as [hs he]. unfold parsed_shape, h_start, h_end in *.
  simpl in Hshape.
  set (L := line_count (before_content r)) in *.
  exists (Z.max 1 (hs - context_before)), (Z.min L (he + context_after)).
  split; [reflexivity|]. split; [reflexivity|].
  unfold make_chunk, model_target_text.
  fold after_lines. fold n. fold (line_count (before_content r)). fold L.
  destruct (Z.max 1 (hs - context_before) <=? n) eqn:E1;
    destruct (Z.min L (he + context_after) <=? n) eqn:E2; simpl;
    try apply Z.leb_le in E1; try apply Z.leb_le in E2;
    try apply Z.leb_gt in E1; try apply Z.leb_gt in E2.
  - split; [split; [intros _; lia|intros _; discriminate]|].
    intros _ _. f_equal. f_equal. apply py_slice_lines; fold n; lia.
  - split; [split; [intros H; now contradiction H|intros [? ?]; lia]|intros; lia].
  - split; [split; [intros H; now contradiction H|intros [? ?]; lia]|intros; lia].
  - split; [split; [intros H; now contradiction H|intros [? ?]; lia]|intros; lia].
Qed.

Lemma chunk_target_text_witness :
  truthy (patch shrunk_file) = true /\
  truthy (before_content shrunk_file) = true /\
  0 <= 5 /\
  nth_error (add_editable_region_markers shrunk_file 1 5 10) 0 =
    Some (hd shrunk_file (add_editable_region_markers shrunk_file 1 5 10)) /\
  line_count (before_content shrunk_file) = 20 /\
  line_count (after_content shrunk_file) = 10 /\
  editable_region_end
    (hd shrunk_file (add_editable_region_markers shrunk_file 1 5 10)) = Some 15 /\
  model_target_text
    (hd shrunk_file (add_editable_region_markers shrunk_file 1 5 10)) = None.
Proof.
  assert (Hp : truthy (patch shrunk_file) = true) by reflexivity.
  assert (Hb : truthy (before_content shrunk_file) = true) by reflexivity.
  assert (Hca : 0 <= 5) by lia.
  assert (Hi : nth_error (add_editable_region_markers shrunk_file 1 5 10) 0 =
               Some (hd shrunk_file
                       (add_editable_region_markers shrunk_file 1 5 10)))
    by reflexivity.
  split; [exact Hp|]. split; [exact Hb|]. split; [exact Hca|].
  split; [exact Hi|]. split; [reflexivity|]. split; [reflexivity|].
  split; [reflexivity|].
  destruct (chunk_target_text shrunk_file 1 5 10 0 _ Hp Hb Hca Hi)
    as [_ [[Hno _]|(rs & re & Hs & He & Hiff & _)]].
  - vm_compute in Hno. discriminate.
  - vm_compute in He. injection He as <-.
    destruct (model_target_text
                (hd shrunk_file (add_editable_region_markers shrunk_file 1 5 10)))
      as [text|]; [|reflexivity].
    exfalso. assert (Hne : Some text <> None) by discriminate.
    apply Hiff in Hne. vm_compute in Hne. destruct Hne as [_ Hne].
    now apply Hne.
Defined.

(** C4, as it is stated, fails: the content after the change of a file that
    the commit leaves empty has one (empty) line, the region of its chunk
    is lines 1 to 3, and yet the chunk has a target text, the three lines
    before the change. *)
Lemma chunk_target_text_emptied_file :
  ~ (forall chunk region_start region_end,
       In chunk (add_editable_region_markers emptied_file 0 0 10) ->
       editable_region_start chunk = Some region_start ->
       editable_region_end chunk = Some region_end ->
       (model_target_text chunk <> None <->
        region_start <= line_count (after_content emptied_file) /\
        region_end <= line_count (after_content emptied_file))).
Proof.
  intros H.
  destruct (proj1 (H (hd emptied_file
                        (add_editable_region_markers emptied_file 0 0 10))
                     1 3 (or_introl eq_refl) eq_refl eq_refl)) as [_ Hre].
  - vm_compute. discriminate.
  - vm_compute in Hre. now apply Hre.
Qed.

(** *** Input text *)

Section MarkFacts.

Variables region_start region_end : Z.

Lemma mark_loop lines : forall i acc,
  fold_left (mark_step region_start region_end) (enumerate i lines) acc =
  acc ++ marked_from i lines region_start region_end.
Proof.
  induction lines as [|line rest IH]; intros i acc; simpl.
  - now rewrite app_nil_r.
  - rewrite IH. destruct (i =? region_start); destruct (i =? region_end);
      simpl; rewrite <- ?app_assoc; reflexivity.
Qed.

Lemma mark_lines_from lines :
  mark_lines lines region_start region_end =
  marked_from 1 lines region_start region_end.
Proof. unfold mark_lines. now rewrite mark_loop. Qed.

Lemma marked_from_app l1 : forall i l2,
  marked_from i (l1 ++ l2) region_start region_end =
  marked_from i l1 region_start region_end ++
  marked_from (i + Z.of_nat (length l1)) l2 region_start region_end.
Proof.
  induction l1 as [|x l1 IH]; intros i l2; simpl length.
  - simpl. now rewrite Z.add_0_r.
  - cbn [marked_from app]. rewrite IH.
    replace (i + 1 + Z.of_nat (length l1)) with (i + Z.of_nat (S (length l1)))
      by lia.
    destruct (i =? region_start); destruct (i =? region_end); simpl;
      rewrite <- ?app_assoc; reflexivity.
Qed.

(** Lines whose numbers are neither bound stay as they are. *)
Lemma marked_from_plain l : forall i,
  (region_start < i \/ i + Z.of_nat (length l) <= region_start) ->
  (region_end < i \/ i + Z.of_nat (length l) <= region_end) ->
  marked_from i l region_start region_end = l.
Proof.
  induction l as [|x l IH]; intros i Hs He; [reflexivity|].
  cbn [marked_from]. simpl length in Hs, He.
  destruct (i =? region_start) eqn:E1; [apply Z.eqb_eq in E1; lia|].
  destruct (i =? region_end) eqn:E2; [apply Z.eqb_eq in E2; lia|].
  simpl. f_equal. apply IH; lia.
Qed.

(** Lines that end at [region_end], with [region_start] not among them. *)
Lemma marked_from_end l : forall i,
  l <> [] ->
  (region_start < i \/ i + Z.of_nat (length l) <= region_start) ->
  region_end = i + Z.of_nat (length l) - 1 ->
  marked_from i l region_start region_end = l ++ [editable_region_end_marker].
Proof.
  induction l as [|x l IH]; intros i Hne Hs He; [congruence|].
  cbn [marked_from]. simpl length in Hs, He.
  destruct (i =? region_start) eqn:E1; [apply Z.eqb_eq in E1; lia|].
  destruct l as [|y l].
  - simpl in He. replace (i =? region_end) with true
      by (symmetry; apply Z.eqb_eq; lia). reflexivity.
  - destruct (i =? region_end) eqn:E2;
      [apply Z.eqb_eq in E2; simpl length in He; lia|].
    simpl app. f_equal. apply IH; [discriminate| |]; simpl length in *; lia.
Qed.

(** Lines that start at [region_start], with [region_end] not among them. *)
Lemma marked_from_start l : forall i,
  l <> [] ->
  i = region_start ->
  (region_end < i \/ i + Z.of_nat (length l) <= region_end) ->
  marked_from i l region_start region_end = editable_region_start_marker :: l.
Proof.
  intros i Hne Hs He. destruct l as [|x l]; [congruence|].
  cbn [marked_from]. simpl length in He.
  replace (i =? region_start) with true by (symmetry; apply Z.eqb_eq; lia).
  destruct (i =? region_end) eqn:E2; [apply Z.eqb_eq in E2; lia|].
  simpl. do 2 f_equal. apply marked_from_plain; lia.
Qed.

(** The lines [region_start] to [region_end]. *)
Lemma marked_from_both l : forall i,
  l <> [] ->
  i = region_start ->
  region_end = i + Z.of_nat (length l) - 1 ->
  marked_from i l region_start region_end =
  editable_region_start_marker :: l ++ [editable_region_end_marker].
Proof.
  intros i Hne Hs He. destruct l as [|x l]; [congruence|].
  cbn [marked_from].
  replace (i =? region_start) with true by (symmetry; apply Z.eqb_eq; lia).
  destruct l as [|y l].
  - simpl in He. replace (i =? region_end) with true
      by (symmetry; apply Z.eqb_eq; lia). reflexivity.
  - destruct (i =? region_end) eqn:E2;
      [apply Z.eqb_eq in E2; simpl length in He; lia|].
    simpl app. do 2 f_equal.
    apply (marked_from_end (y :: l) (i + 1));
      [discriminate| |]; simpl length in *; lia.
Qed.

End MarkFacts.

Section MarkedSplits.

Variables region_start region_end : Z.

(** The lines before [region_start], the lines of the region, and the
    lines after [region_end]. *)
Lemma marked_split_both (P M Q : list string) :
  Z.of_nat (length P) = region_start - 1 ->
  M <> [] ->
  Z.of_nat (length M) = region_end - region_start + 1 ->
  marked_from 1 (P ++ M ++ Q) region_start region_end =
  P ++ editable_region_start_marker :: M ++ editable_region_end_marker :: Q.
Proof.
  intros HP HM HlenM.
  assert (1 <= Z.of_nat (length M)) by (destruct M; [congruence|simpl; lia]).
  rewrite !marked_from_app.
  rewrite marked_from_plain by lia.
  rewrite (marked_from_both region_start region_end M) by (assumption || lia).
  rewrite marked_from_plain by lia.
  simpl. now rewrite <- app_assoc.
Qed.

(** Only the end marker: [region_start] is beyond the last line. *)
Lemma marked_split_end (P Q : list string) :
  P <> [] ->
  Z.of_nat (length P) = region_end ->
  Z.of_nat (length P + length Q) < region_start ->
  marked_from 1 (P ++ Q) region_start region_end =
  P ++ editable_region_end_marker :: Q.
Proof.
  intros HP HlenP Hs.
  rewrite marked_from_app.
  rewrite (marked_from_end region_start region_end P) by (assumption || lia).
  rewrite marked_from_plain by lia.
  now rewrite <- app_assoc.
Qed.

(** Only the start marker: [region_end] is before the first line. *)
Lemma marked_split_start (P Q : list string) :
  Q <> [] ->
  Z.of_nat (length P) = region_start - 1 ->
  region_end < 1 ->
  marked_from 1 (P ++ Q) region_start region_end =
  P ++ editable_region_start_marker :: Q.
Proof.
  intros HQ HlenP He.
  rewrite marked_from_app.
  rewrite marked_from_plain by lia.
  now rewrite (marked_from_start region_start region_end Q)
    by (assumption || lia).
Qed.

Variable lines : list string.

Let L := Z.of_nat (length lines).

Lemma lines_before_length a :
  1 <= a <= L + 1 -> Z.of_nat (length (lines_before lines a)) = a - 1.
Proof.
  intros Ha. unfold lines_before. rewrite length_firstn. unfold L in Ha. lia.
Qed.

Lemma lines_before_after a :
  lines = lines_before lines (a + 1) ++ lines_after lines a.
Proof.
  unfold lines_before, lines_after.
  replace (a + 1 - 1) with a by lia. now rewrite firstn_skipn.
Qed.

Lemma lines_split a b :
  1 <= a -> a <= b + 1 ->
  lines =
  lines_before lines a ++ lines_between lines a b ++ lines_after lines b.
Proof.
  intros Ha Hab. unfold lines_before, lines_between, lines_after.
  replace (Z.to_nat b) with (Z.to_nat (b - a + 1) + Z.to_nat (a - 1))%nat
    by lia.
  now rewrite <- skipn_skipn, !firstn_skipn.
Qed.

Lemma lines_between_length a b :
  1 <= a -> a <= b + 1 -> b <= L ->
  Z.of_nat (length (lines_between lines a b)) = b - a + 1.
Proof.
  intros Ha Hab Hb. unfold lines_between.
  rewrite length_firstn, length_skipn. unfold L in Hb. lia.
Qed.

(** The marked lines, in the four positions of the bounds against the
    lines. *)
Lemma mark_lines_both :
  1 <= region_start -> region_start <= region_end -> region_end <= L ->
  mark_lines lines region_start region_end =
  lines_before lines region_start ++
  [editable_region_start_marker] ++
  lines_between lines region_start region_end ++
  [editable_region_end_marker] ++ lines_after lines region_end.
Proof.
  intros Hs Hse He. rewrite mark_lines_from.
  rewrite (lines_split region_start region_end) at 1 by lia.
  apply marked_split_both.
  - apply lines_before_length. lia.
  - intros E. pose proof (lines_between_length region_start region_end) as Hl.
    rewrite E in Hl. simpl in Hl. lia.
  - apply lines_between_length; lia.
Qed.

Lemma mark_lines_end :
  L < region_start -> 1 <= region_end -> region_end <= L ->
  mark_lines lines region_start region_end =
  lines_before lines (region_end + 1) ++
  [editable_region_end_marker] ++ lines_after lines region_end.
Proof.
  intros Hs He HeL. rewrite mark_lines_from.
  rewrite (lines_before_after region_end) at 1.
  assert (Hlen : Z.of_nat (length (lines_before lines (region_end + 1))) =
                 region_end).
  { rewrite lines_before_length; lia. }
  apply marked_split_end.
  - intros E. rewrite E in Hlen. simpl in Hlen. lia.
  - exact Hlen.
  - rewrite <- length_app, <- lines_before_after. exact Hs.
Qed.

Lemma mark_lines_start :
  1 <= region_start -> region_start <= L -> region_end < 1 ->
  mark_lines lines region_start region_end =
  lines_before lines region_start ++
  [editable_region_start_marker] ++ lines_after lines (region_start - 1).
Proof.
  intros Hs HsL He. rewrite mark_lines_from.
  pose proof (lines_before_after (region_start - 1)) as Hsplit.
  replace (region_start - 1 + 1) with region_start in Hsplit by lia.
  rewrite Hsplit at 1.
  apply marked_split_start.
  - intros E. apply (f_equal (@length string)) in Hsplit.
    rewrite length_app, E in Hsplit. simpl in Hsplit.
    pose proof (lines_before_length region_start). unfold L in *. lia.
  - apply lines_before_length. lia.
  - exact He.
Qed.

Lemma mark_lines_none :
  L < region_start -> region_end < 1 ->
  mark_lines lines region_start region_end = lines.
Proof.
  intros Hs He. rewrite mark_lines_from.
  apply marked_from_plain; unfold L in *; lia.
Qed.

End MarkedSplits.

(** C8, as the code has it.  The input text of the chunk of a merged region
    is the lines before the change joined with newlines, with the start
    marker as a line of its own before line [region_start] when
    [region_start <= L], and the end marker as a line of its own after line
    [region_end] when [region_end >= 1]; a marker whose bound is not the
    number of a line is left out.  [L] is the number of lines before the
    change. *)
Theorem chunk_input_text (r : file_record)
    (context_before context_after max_gap : Z) (i : nat) (chunk : file_record) :
  truthy (patch r) = true ->
  truthy (before_content r) = true ->
  0 <= context_before ->
  0 <= context_after ->
  nth_error
    (add_editable_region_markers r context_before context_after max_gap) i
  = Some chunk ->
  let before_lines := lines_of (before_content r) in
  let L := Z.of_nat (length before_lines) in
  (parse_patch_hunks (patch r) = [] /\ chunk = not_chunkable r) \/
  (exists region_start region_end,
     editable_region_start chunk = Some region_start /\
     editable_region_end chunk = Some region_end /\
     (region_start <= L -> 1 <= region_end ->
      model_input_text chunk =
      Some (join_lines
              (lines_before before_lines region_start ++
               [editable_region_start_marker] ++
               lines_between before_lines region_start region_end ++
               [editable_region_end_marker] ++
               lines_after before_lines region_end))) /\
     (L < region_start -> 1 <= region_end ->
      model_input_text chunk =
      Some (join_lines
              (lines_before before_lines (region_end + 1) ++
               [editable_region_end_marker] ++
               lines_after before_lines region_end))) /\
     (region_start <= L -> region_end < 1 ->
      model_input_text chunk =
      Some (join_lines
              (lines_before before_lines region_start ++
               [editable_region_start_marker] ++
               lines_after before_lines (region_start - 1)))) /\
     (L < region_start -> region_end < 1 ->
      model_input_text chunk = Some (join_lines before_lines))).
Proof.
  intros Hp Hb Hcb Hca Hi before_lines L.
  destruct (chunk_nth_cases r context_before context_after max_gap i chunk
              Hp Hb Hi) as [Hno|(h & Hh & ->)]; [now left|right].
  pose proof (merged_parsed_shape (patch r) max_gap) as Hshape.
  rewrite Forall_forall in Hshape.
  specialize (Hshape h (nth_error_In _ _ Hh)).
  pose proof (before_lines_count r Hb) as HL.
  unfold line_count in HL. fold before_lines in HL. fold L in HL.
  destruct h as [hs he]. unfold parsed_shape, h_start, h_end in *.
  simpl in Hshape.
  exists (Z.max 1 (hs - context_before)), (Z.min L (he + context_after)).
  split; [reflexivity|]. split; [reflexivity|].
  unfold make_chunk, model_input_text. fold L.
  repeat split; intros H1 H2; do 2 f_equal.
  - apply mark_lines_both; fold L; lia.
  - apply mark_lines_end; fold L; lia.
  - apply mark_lines_start; fold L; lia.
  - apply mark_lines_none; fold L; lia.
Qed.

Lemma chunk_input_text_witness :
  truthy (patch changed_file) = true /\
  truthy (before_content changed_file) = true /\
  0 <= 0 /\ 0 <= 0 /\
  nth_error (add_editable_region_markers changed_file 0 0 10) 0 =
    Some (hd changed_file (add_editable_region_markers changed_file 0 0 10)) /\
  model_input_text
    (hd changed_file (add_editable_region_markers changed_file 0 0 10)) =
  Some (join_lines ["a"; editable_region_start_marker; "b"; "c";
                    editable_region_end_marker]%string).
Proof.
  assert (Hp : truthy (patch changed_file) = true) by reflexivity.
  assert (Hb : truthy (before_content changed_file) = true) by reflexivity.
  assert (H0 : 0 <= 0) by lia.
  assert (Hi : nth_error (add_editable_region_markers changed_file 0 0 10) 0 =
               Some (hd changed_file
                       (add_editable_region_markers changed_file 0 0 10)))
    by reflexivity.
  split; [exact Hp|]. split; [exact Hb|]. split; [exact H0|].
  split; [exact H0|]. split; [exact Hi|].
  destruct (chunk_input_text changed_file 0 0 10 0 _ Hp Hb H0 H0 Hi)
    as [[Hno _]|(rs & re & Hs & He & Hboth & _)].
  - vm_compute in Hno. discriminate.
  - vm_compute in Hs, He. injection Hs as <-. injection He as <-.
    rewrite Hboth by (vm_compute; discriminate). reflexivity.
Defined.

(** C8, as it is stated, fails: the hunk of [short_file] starts at line 10
    of a content of one line, so that [region_start] is 9, no line has that
    number, and the start marker is nowhere in the input text. *)
Lemma chunk_input_text_short_file :
  ~ (forall chunk text,
       In chunk (add_editable_region_markers short_file 1 5 10) ->
       model_input_text chunk = Some text ->
       occurs editable_region_start_marker text /\
       occurs editable_region_end_marker text).
Proof.
  intros H.
  destruct (H (hd short_file (add_editable_region_markers short_file 1 5 10))
              (join_lines ["a"; editable_region_end_marker]%string)
              (or_introl eq_refl) eq_refl) as [(pre & post & Hocc) _].
  apply suffixes_In in Hocc. vm_compute in Hocc.
  repeat (destruct Hocc as [Hocc|Hocc]; [discriminate|]).
  exact Hocc.
Qed.

(** ** Further properties of the merger *)


Section OrderOfHunks.

Variable max_gap : Z.
Hypothesis max_gap_nonneg : 0 <= max_gap.

Lemma tie_swapped_refl l : tie_swapped l l.
Proof. induction l; constructor; assumption. Qed.

Lemma tie_swapped_Permutation l l' : tie_swapped l l' -> Permutation l l'.
Proof.
  induction 1; [constructor|now constructor|apply perm_swap|].
  eapply perm_trans; eassumption.
Qed.

Lemma insert_by_start_tie x l l' :
  tie_swapped l l' ->
  tie_swapped (insert_by_start x l) (insert_by_start x l').
Proof.
  induction 1 as [|y l l' H IH|a b l Hab|l1 l2 l3 H1 IH1 H2 IH2].
  - apply tie_swapped_refl.
  - simpl. destruct (h_start x <=? h_start y).
    + now do 2 apply tie_skip.
    + now apply tie_skip.
  - simpl. rewrite Hab. destruct (h_start x <=? h_start b).
    + apply tie_skip. now apply tie_swap.
    + now apply tie_swap.
  - eapply tie_trans; eassumption.
Qed.

Lemma insert_by_start_comm a b l :
  tie_swapped (insert_by_start a (insert_by_start b l))
              (insert_by_start b (insert_by_start a l)).
Proof.
  induction l as [|z l IH].
  - cbn [insert_by_start].
    destruct (h_start a <=? h_start b) eqn:Eab;
      destruct (h_start b <=? h_start a) eqn:Eba;
      try apply tie_swapped_refl.
    + apply tie_swap. apply Z.leb_le in Eab, Eba. lia.
    + apply Z.leb_gt in Eab, Eba. lia.
  - cbn [insert_by_start].
    destruct (h_start b <=? h_start z) eqn:Ebz;
      destruct (h_start a <=? h_start z) eqn:Eaz;
      cbn [insert_by_start]; rewrite ?Ebz, ?Eaz.
    + destruct (h_start a <=? h_start b) eqn:Eab;
        destruct (h_start b <=? h_start a) eqn:Eba;
        cbn [insert_by_start]; rewrite ?Ebz, ?Eaz;
        try apply tie_swapped_refl.
      * apply tie_swap. apply Z.leb_le in Eab, Eba. lia.
      * apply Z.leb_gt in Eab, Eba. lia.
    + apply Z.leb_le in Ebz. apply Z.leb_gt in Eaz.
      replace (h_start a <=? h_start b) with false
        by (symmetry; apply Z.leb_gt; lia).
      cbn [insert_by_start].
      replace (h_start a <=? h_start z) with false
        by (symmetry; apply Z.leb_gt; lia).
      apply tie_swapped_refl.
    + apply Z.leb_gt in Ebz. apply Z.leb_le in Eaz.
      replace (h_start b <=? h_start a) with false
        by (symmetry; apply Z.leb_gt; lia).
      cbn [insert_by_start].
      replace (h_start b <=? h_start z) with false
        by (symmetry; apply Z.leb_gt; lia).
      apply tie_swapped_refl.
    + now apply tie_skip.
Qed.

Lemma sorted_by_key_tie l l' :
  Permutation l l' -> tie_swapped (sorted_by_key l) (sorted_by_key l').
Proof.
  induction 1 as [|x l l' H IH|x y l|l1 l2 l3 H1 IH1 H2 IH2]; simpl.
  - constructor.
  - now apply insert_by_start_tie.
  - apply insert_by_start_comm.
  - eapply tie_trans; eassumption.
Qed.

(** Two hunks with the same start, scanned one after the other, leave the
    scan where it is whichever comes first. *)
Lemma merge_from_tie l l' :
  tie_swapped l l' -> Forall well_formed l ->
  forall cur, merge_from max_gap cur l = merge_from max_gap cur l'.
Proof.
  induction 1 as [|y l l' H IH|a b l Hab|l1 l2 l3 H1 IH1 H2 IH2];
    intros Hwf cur.
  - reflexivity.
  - inversion Hwf; subst. simpl. destruct (_ <=? _); now rewrite IH.
  - inversion Hwf as [|? ? Ha Hwf']; subst.
    inversion Hwf' as [|? ? Hb _]; subst.
    unfold well_formed in Ha, Hb. simpl. rewrite Hab.
    destruct (h_start b - h_end cur <=? max_gap) eqn:E; simpl.
    + apply Z.leb_le in E.
      replace (h_start b - Z.max (h_end cur) (h_end a) <=? max_gap) with true
        by (symmetry; apply Z.leb_le; lia).
      replace (h_start b - Z.max (h_end cur) (h_end b) <=? max_gap) with true
        by (symmetry; apply Z.leb_le; lia).
      do 2 f_equal. lia.
    + replace (h_start b - h_end a <=? max_gap) with true
        by (symmetry; apply Z.leb_le; lia).
      replace (h_start b - h_end b <=? max_gap) with true
        by (symmetry; apply Z.leb_le; lia).
      do 3 f_equal. lia.
  - rewrite IH1 by assumption. apply IH2.
    eapply Permutation_Forall; [|exact Hwf].
    now apply tie_swapped_Permutation.
Qed.

Lemma merge_sorted_tie l l' :
  tie_swapped l l' -> Forall well_formed l ->
  merge_sorted max_gap l = merge_sorted max_gap l'.
Proof.
  induction 1 as [|y l l' H IH|a b l Hab|l1 l2 l3 H1 IH1 H2 IH2]; intros Hwf.
  - reflexivity.
  - inversion Hwf; subst. simpl. now apply merge_from_tie.
  - inversion Hwf as [|? ? Ha Hwf']; subst.
    inversion Hwf' as [|? ? Hb _]; subst.
    unfold well_formed in Ha, Hb. simpl. rewrite Hab.
    replace (h_start b - h_end a <=? max_gap) with true
      by (symmetry; apply Z.leb_le; lia).
    replace (h_start b - h_end b <=? max_gap) with true
      by (symmetry; apply Z.leb_le; lia).
    do 2 f_equal. lia.
  - rewrite IH1 by assumption. apply IH2.
    eapply Permutation_Forall; [|exact Hwf].
    now apply tie_swapped_Permutation.
Qed.

End OrderOfHunks.

(** X1.  The merged regions do not depend on the order in which the hunks
    are given: for hunks with [start <= end] and a gap that is not negative,
    rearranged hunks give the same regions. *)
Theorem merge_close_hunks_order (hunks hunks' : list hunk) (max_gap : Z) :
  0 <= max_gap ->
  Forall well_formed hunks ->
  Permutation hunks hunks' ->
  merge_close_hunks hunks max_gap = merge_close_hunks hunks' max_gap.
Proof.
  intros Hg Hwf Hp. rewrite !merge_close_hunks_from.
  change (merge_sorted max_gap (sorted_by_key hunks) =
          merge_sorted max_gap (sorted_by_key hunks')).
  apply (merge_sorted_tie max_gap Hg _ _ (sorted_by_key_tie _ _ Hp)).
  apply Forall_forall. intros x Hx.
  apply (proj1 (sorted_by_key_In x hunks)) in Hx.
  rewrite Forall_forall in Hwf. now apply Hwf.
Qed.

Lemma merge_close_hunks_order_witness :
  0 <= 10 /\
  Forall well_formed [(15, 18); (5, 8); (5, 6)] /\
  Permutation [(15, 18); (5, 8); (5, 6)] [(5, 6); (15, 18); (5, 8)] /\
  merge_close_hunks [(15, 18); (5, 8); (5, 6)] 10 =
  merge_close_hunks [(5, 6); (15, 18); (5, 8)] 10.
Proof.
  assert (Hg : 0 <= 10) by lia.
  assert (Hwf : Forall well_formed [(15, 18); (5, 8); (5, 6)]).
  { repeat constructor; unfold well_formed; simpl; lia. }
  assert (Hp : Permutation [(15, 18); (5, 8); (5, 6)]
                           [(5, 6); (15, 18); (5, 8)]).
  { apply Permutation_sym. apply (Permutation_cons_app [(15, 18); (5, 8)] []).
    apply Permutation_refl. }
  split; [exact Hg|]. split; [exact Hwf|]. split; [exact Hp|].
  exact (merge_close_hunks_order _ _ 10 Hg Hwf Hp).
Defined.

Section RegionsFromHunks.

Variable max_gap : Z.

Lemma merge_from_ends rest : forall cur x,
  In x (merge_from max_gap cur rest) ->
  exists h, In h (cur :: rest) /\ h_end x = h_end h.
Proof.
  induction rest as [|c r IH]; intros cur x; simpl.
  - intros [<-|[]]. exists cur. auto.
  - destruct (_ <=? _).
    + intros Hx. apply IH in Hx. destruct Hx as (h & [<-|Hh] & E).
      * simpl in E. destruct (Z.max_spec (h_end cur) (h_end c)) as [[_ Hm]|[_ Hm]].
        -- exists c. split; [auto|congruence].
        -- exists cur. split; [auto|congruence].
      * exists h. auto.
    + intros [<-|Hx].
      * exists cur. auto.
      * apply IH in Hx. destruct Hx as (h & Hh & E). exists h. auto.
Qed.

Lemma merge_from_length rest : forall cur,
  (1 <= length (merge_from max_gap cur rest) <= S (length rest))%nat.
Proof.
  induction rest as [|c r IH]; intros cur; simpl; [lia|].
  destruct (_ <=? _).
  - specialize (IH (h_start cur, Z.max (h_end cur) (h_end c))). lia.
  - specialize (IH c). simpl. lia.
Qed.

Lemma sorted_by_key_length hunks :
  length (sorted_by_key hunks) = length hunks.
Proof.
  induction hunks as [|h hunks IH]; simpl; [reflexivity|].
  now rewrite insert_by_start_length, IH.
Qed.

(** Regions that come later start more than [max_gap] after the end of a
    region. *)
Lemma merge_from_all_apart rest : forall cur,
  StronglySorted start_le rest ->
  StronglySorted (apart max_gap) (merge_from max_gap cur rest).
Proof.
  induction rest as [|c r IH]; intros cur Hs; simpl.
  - repeat constructor.
  - inversion Hs as [|? ? Hr Hcr]; subst.
    destruct (h_start c - h_end cur <=? max_gap) eqn:E; [now apply IH|].
    apply Z.leb_gt in E. constructor; [now apply IH|].
    apply Forall_forall. intros x Hx.
    apply merge_from_starts in Hx. destruct Hx as (h & Hh & Ex).
    unfold apart. rewrite Ex. destruct Hh as [<-|Hh]; [lia|].
    rewrite Forall_forall in Hcr. specialize (Hcr h Hh).
    unfold start_le in Hcr. lia.
Qed.

Lemma regions_all_apart hunks :
  StronglySorted (apart max_gap) (merge_close_hunks hunks max_gap).
Proof.
  rewrite merge_close_hunks_from.
  pose proof (sorted_by_key_sorted hunks) as Hs.
  destruct (sorted_by_key hunks) as [|first rest]; [constructor|].
  inversion Hs; subst. now apply merge_from_all_apart.
Qed.

End RegionsFromHunks.

(** X2.  There are never more regions than hunks, and hunks that are not
    none give at least one region. *)
Theorem merge_close_hunks_count (hunks : list hunk) (max_gap : Z) :
  (length (merge_close_hunks hunks max_gap) <= length hunks)%nat /\
  (hunks <> [] -> merge_close_hunks hunks max_gap <> []).
Proof.
  split; [|apply merge_close_hunks_nonempty].
  rewrite merge_close_hunks_from.
  pose proof (sorted_by_key_length hunks) as Hlen.
  destruct (sorted_by_key hunks) as [|first rest]; simpl; [lia|].
  pose proof (merge_from_length max_gap rest first). simpl in Hlen. lia.
Qed.

Lemma merge_close_hunks_count_witness :
  [(5, 8); (15, 18)] <> [] /\ merge_close_hunks [(5, 8); (15, 18)] 10 <> [].
Proof.
  assert (H : [(5, 8); (15, 18)] <> []) by discriminate.
  split; [exact H|].
  exact (proj2 (merge_close_hunks_count [(5, 8); (15, 18)] 10) H).
Defined.

(** X3.  A region starts where one of the hunks starts and ends where one
    of the hunks ends: merging invents no bound. *)
Theorem merge_close_hunks_bounds_of_hunks (hunks : list hunk) (max_gap : Z)
    (r : hunk) :
  In r (merge_close_hunks hunks max_gap) ->
  (exists h, In h hunks /\ h_start r = h_start h) /\
  (exists h, In h hunks /\ h_end r = h_end h).
Proof.
  rewrite merge_close_hunks_from.
  assert (Hin : forall x, In x (sorted_by_key hunks) -> In x hunks)
    by (intros x; apply sorted_by_key_In).
  destruct (sorted_by_key hunks) as [|first rest]; [intros []|].
  intros Hr. split.
  - apply merge_from_starts in Hr. destruct Hr as (h & Hh & E).
    exists h. auto.
  - apply merge_from_ends in Hr. destruct Hr as (h & Hh & E).
    exists h. auto.
Qed.

Lemma merge_close_hunks_bounds_of_hunks_witness :
  In (5, 18) (merge_close_hunks [(15, 18); (5, 8)] 10) /\
  (exists h, In h [(15, 18); (5, 8)] /\ h_start (5, 18) = h_start h) /\
  (exists h, In h [(15, 18); (5, 8)] /\ h_end (5, 18) = h_end h).
Proof.
  assert (H : In (5, 18) (merge_close_hunks [(15, 18); (5, 8)] 10))
    by (vm_compute; auto).
  split; [exact H|].
  exact (merge_close_hunks_bounds_of_hunks _ _ _ H).
Defined.

(** ** Further properties of the parser *)

Lemma split_lines_app (t1 t2 : string) :
  split_lines (t1 ++ String newline t2) = split_lines t1 ++ split_lines t2.
Proof.
  induction t1 as [|c t1 IH]; [reflexivity|].
  cbn [append split_lines]. rewrite IH.
  pose proof (split_lines_nonempty t1) as Hne.
  destruct (Ascii.eqb c newline); [reflexivity|].
  destruct (split_lines t1); [congruence|reflexivity].
Qed.

(** X4.  The hunks of two texts put one after the other, a newline between
    them, are the hunks of the first followed by the hunks of the second. *)
Theorem parse_patch_hunks_app (t1 t2 : string) :
  parse_patch_hunks (Some (t1 ++ String newline t2)%string) =
  parse_patch_hunks (Some t1) ++ parse_patch_hunks (Some t2).
Proof.
  rewrite !parse_patch_hunks_flat_map, split_lines_app. apply flat_map_app.
Qed.

Lemma parse_line_length line :
  (length (parse_line [] line) <= if startswith line "@@" then 1 else 0)%nat.
Proof.
  rewrite parse_line_cases. destruct (startswith line "@@"); [|simpl; lia].
  destruct (re_search hunk_header line); simpl; lia.
Qed.

(** X5.  A patch gives at most as many hunks as it has lines that start
    with [@@]. *)
Theorem parse_patch_hunks_count (patch : option string) :
  (length (parse_patch_hunks patch) <=
   length (filter (fun line => startswith line "@@") (lines_of patch)))%nat.
Proof.
  destruct patch as [text|]; [|simpl; lia].
  rewrite parse_patch_hunks_flat_map. simpl lines_of.
  induction (split_lines text) as [|line lines IH]; simpl; [lia|].
  rewrite length_app. pose proof (parse_line_length line) as Hl.
  destruct (startswith line "@@"); simpl; lia.
Qed.

(** ** Further properties of the materializer *)

(** X6.  When the two paddings together do not exceed the gap, the padded
    regions of two chunks of a record do not meet: the region of the
    earlier chunk ends before the region of the later one starts. *)
Theorem chunk_regions_apart (r : file_record)
    (context_before context_after max_gap : Z)
    (i j : nat) (ci cj : file_record) :
  context_before + context_after <= max_gap ->
  (i < j)%nat ->
  nth_error
    (add_editable_region_markers r context_before context_after max_gap) i
  = Some ci ->
  nth_error
    (add_editable_region_markers r context_before context_after max_gap) j
  = Some cj ->
  exists region_end region_start,
    editable_region_end ci = Some region_end /\
    editable_region_start cj = Some region_start /\
    region_end < region_start.
Proof.
  intros Hpad Hij Hi Hj. destruct (chunkable r) eqn:Hc.
  - rewrite (chunks_nth_error r _ _ _ i Hc) in Hi.
    rewrite (chunks_nth_error r _ _ _ j Hc) in Hj.
    destruct (nth_error _ i) as [hi|] eqn:Ei; [|discriminate].
    destruct (nth_error _ j) as [hj|] eqn:Ej; [|discriminate].
    injection Hi as <-. injection Hj as <-.
    pose proof (StronglySorted_nth _ _
                  (regions_all_apart max_gap (parse_patch_hunks (patch r)))
                  i j hi hj Hij Ei Ej) as Hap.
    unfold apart in Hap. destruct hi as [si ei], hj as [sj ej].
    unfold h_start, h_end in Hap. simpl in Hap.
    eexists. eexists. split; [reflexivity|]. split; [reflexivity|]. lia.
  - rewrite (chunkable_false r _ _ _ Hc) in Hj.
    destruct j as [|[|j]]; [lia|discriminate|discriminate].
Qed.

(** A record of two hunks that are too far apart to be merged. *)
Lemma chunk_regions_apart_witness :
  let r := file_level_record
             (Some (join_lines ["@@ -2 +2 @@"; "@@ -30 +30 @@"]%string))
             (Some (join_lines (repeat "x"%string 40)))
             (Some (join_lines (repeat "x"%string 40))) in
  1 + 5 <= 10 /\ (0 < 1)%nat /\
  editable_region_end (nth 0 (add_editable_region_markers r 1 5 10) r)
    = Some 8 /\
  editable_region_start (nth 1 (add_editable_region_markers r 1 5 10) r)
    = Some 29.
Proof.
  intros r.
  assert (Hpad : 1 + 5 <= 10) by lia.
  assert (Hij : (0 < 1)%nat) by lia.
  split; [exact Hpad|]. split; [exact Hij|].
  destruct (chunk_regions_apart r 1 5 10 0 1
              (nth 0 (add_editable_region_markers r 1 5 10) r)
              (nth 1 (add_editable_region_markers r 1 5 10) r)
              Hpad Hij eq_refl eq_refl) as (e & s & He & Hs & _).
  vm_compute in He, Hs. injection He as <-. injection Hs as <-.
  split; reflexivity.
Defined.

(** X7.  Every chunk of a record says whether the record has more than one
    chunk. *)
Theorem chunk_is_multi (r : file_record)
    (context_before context_after max_gap : Z) (chunk : file_record) :
  In chunk
    (add_editable_region_markers r context_before context_after max_gap) ->
  is_multi_chunk_file chunk =
  Some (1 <? Z.of_nat
               (length (add_editable_region_markers r context_before
                          context_after max_gap))).
Proof.
  intros Hin. destruct (chunkable r) eqn:Hc.
  - rewrite (chunks_length r _ _ _ Hc).
    apply In_nth_error in Hin. destruct Hin as (i & Hi).
    rewrite (chunks_nth_error r _ _ _ _ Hc) in Hi.
    destruct (nth_error _ i) as [[hs he]|]; [|discriminate].
    injection Hi as <-. reflexivity.
  - rewrite (chunkable_false r _ _ _ Hc) in *.
    destruct Hin as [<-|[]]. reflexivity.
Qed.

Lemma chunk_is_multi_witness :
  In (hd changed_file (add_editable_region_markers changed_file 1 5 10))
     (add_editable_region_markers changed_file 1 5 10) /\
  is_multi_chunk_file
    (hd changed_file (add_editable_region_markers changed_file 1 5 10))
  = Some false.
Proof.
  assert (H : In (hd changed_file
                    (add_editable_region_markers changed_file 1 5 10))
                 (add_editable_region_markers changed_file 1 5 10))
    by (left; reflexivity).
  split; [exact H|].
  exact (chunk_is_multi changed_file 1 5 10 _ H).
Defined.

Section InputTextFacts.

Local Open Scope string_scope.

Lemma split_lines_no_newline s :
  Forall (fun l => has_newline l = false) (split_lines s).
Proof.
  induction s as [|c s IH]; [repeat constructor|].
  cbn [split_lines]. destruct (Ascii.eqb c newline) eqn:E.
  - constructor; [reflexivity|exact IH].
  - destruct (split_lines s) as [|l ls]; [repeat constructor; simpl; now rewrite E|].
    inversion IH; subst. constructor; [|assumption]. simpl. now rewrite E.
Qed.

Lemma split_lines_one s : has_newline s = false -> split_lines s = [s].
Proof.
  induction s as [|c s IH]; [reflexivity|].
  simpl. destruct (Ascii.eqb c newline); [discriminate|].
  simpl. intros H. now rewrite IH.
Qed.

(** Splitting what was joined gives the lines back, when no line holds a
    newline. *)
Lemma split_join_lines l :
  l <> [] -> Forall (fun x => has_newline x = false) l ->
  split_lines (join_lines l) = l.
Proof.
  unfold join_lines. set (sep := String newline "").
  induction l as [|x l IH]; [congruence|]. intros _ Hall.
  inversion Hall as [|? ? Hx Hl]; subst.
  destruct l as [|y l].
  - simpl. now apply split_lines_one.
  - change (String.concat sep (x :: y :: l))
      with (x ++ String newline (String.concat sep (y :: l))).
    rewrite split_lines_app, (split_lines_one x Hx), IH;
      [reflexivity|discriminate|exact Hl].
Qed.

Lemma marked_from_nonempty lines : forall i rs re,
  lines <> [] -> marked_from i lines rs re <> [].
Proof.
  intros i rs re Hne. destruct lines as [|x rest]; [congruence|].
  cbn [marked_from]. destruct (i =? rs)%Z; discriminate.
Qed.

Lemma marked_from_no_newline lines : forall i rs re,
  Forall (fun l => has_newline l = false) lines ->
  Forall (fun l => has_newline l = false) (marked_from i lines rs re).
Proof.
  induction lines as [|x rest IH]; intros i rs re Hall; [constructor|].
  inversion Hall; subst. cbn [marked_from].
  repeat (apply Forall_app; split); try now apply IH.
  - destruct (i =? rs)%Z; repeat constructor.
  - now repeat constructor.
  - destruct (i =? re)%Z; repeat constructor.
Qed.

(** Taking the markers out of the marked lines gives the lines back, when
    no line is itself a marker. *)
Lemma marked_from_filter lines : forall i rs re,
  Forall (fun l => is_marker l = false) lines ->
  filter (fun l => negb (is_marker l)) (marked_from i lines rs re) = lines.
Proof.
  induction lines as [|x rest IH]; intros i rs re Hall; [reflexivity|].
  inversion Hall as [|? ? Hx Hrest]; subst. cbn [marked_from].
  rewrite !filter_app. rewrite IH by exact Hrest.
  cbn [filter]. rewrite Hx.
  destruct (i =? rs)%Z; destruct (i =? re)%Z; reflexivity.
Qed.

Lemma join_lines_empty l : join_lines l = "" -> l = [] \/ l = [""].
Proof.
  unfold join_lines. destruct l as [|x [|y l]]; simpl.
  - auto.
  - intros ->. auto.
  - destruct x; simpl; discriminate.
Qed.

Lemma marked_from_not_blank lines i rs re :
  marked_from i lines rs re = [""] -> lines = [""].
Proof.
  destruct lines as [|x rest]; [discriminate|]. cbn [marked_from].
  destruct (i =? rs)%Z; [discriminate|].
  destruct (i =? re)%Z; [destruct rest; discriminate|].
  simpl. intros H. injection H as -> H.
  destruct rest as [|y rest]; [reflexivity|].
  cbn [marked_from] in H. destruct (i + 1 =? rs)%Z; discriminate.
Qed.

Lemma chunk_input_of_region (r : file_record)
    (context_before context_after max_gap : Z) (chunk : file_record) :
  chunkable r = true ->
  In chunk
    (add_editable_region_markers r context_before context_after max_gap) ->
  exists rs re,
    model_input_text chunk =
    Some (join_lines (marked_from 1 (lines_of (before_content r)) rs re)).
Proof.
  intros Hc Hin. apply In_nth_error in Hin. destruct Hin as (i & Hi).
  rewrite (chunks_nth_error r _ _ _ _ Hc) in Hi.
  destruct (nth_error _ i) as [[hs he]|]; [|discriminate].
  injection Hi as <-. unfold make_chunk, model_input_text.
  rewrite mark_lines_from. eauto.
Qed.

Lemma chunkable_before (r : file_record) :
  chunkable r = true ->
  exists c text, before_content r = Some (String c text).
Proof.
  unfold chunkable. intros H. apply andb_true_iff in H. destruct H as [H _].
  apply andb_true_iff in H. destruct H as [_ H].
  destruct (before_content r) as [[|c text]|]; try discriminate. eauto.
Qed.

End InputTextFacts.

(** X8.  The content before the change can be read back from the input
    text of a chunk: when no line of the content is itself a marker, the
    lines of the input text without the marker lines, joined again, are the
    content before the change. *)
Theorem chunk_input_text_round_trip (r : file_record)
    (context_before context_after max_gap : Z)
    (chunk : file_record) (before : string) :
  chunkable r = true ->
  before_content r = Some before ->
  Forall (fun l => is_marker l = false) (split_lines before) ->
  In chunk
    (add_editable_region_markers r context_before context_after max_gap) ->
  exists text,
    model_input_text chunk = Some text /\
    join_lines (filter (fun l => negb (is_marker l)) (split_lines text))
    = before.
Proof.
  intros Hc Hb Hclean Hin.
  destruct (chunk_input_of_region r _ _ _ chunk Hc Hin) as (rs & re & Ht).
  rewrite Hb in Ht. unfold lines_of in Ht.
  eexists. split; [exact Ht|].
  rewrite split_join_lines.
  - rewrite marked_from_filter by exact Hclean. apply join_split_lines.
  - apply marked_from_nonempty. apply split_lines_nonempty.
  - apply marked_from_no_newline. apply split_lines_no_newline.
Qed.

Lemma chunk_input_text_round_trip_witness :
  chunkable changed_file = true /\
  before_content changed_file = Some (join_lines ["a"; "b"; "c"]%string) /\
  Forall (fun l => is_marker l = false)
         (split_lines (join_lines ["a"; "b"; "c"]%string)) /\
  In (hd changed_file (add_editable_region_markers changed_file 0 0 10))
     (add_editable_region_markers changed_file 0 0 10) /\
  exists text,
    model_input_text
      (hd changed_file (add_editable_region_markers changed_file 0 0 10))
    = Some text /\
    join_lines (filter (fun l => negb (is_marker l)) (split_lines text))
    = join_lines ["a"; "b"; "c"]%string.
Proof.
  assert (Hc : chunkable changed_file = true) by reflexivity.
  assert (Hb : before_content changed_file =
               Some (join_lines ["a"; "b"; "c"]%string)) by reflexivity.
  assert (Hclean : Forall (fun l => is_marker l = false)
                     (split_lines (join_lines ["a"; "b"; "c"]%string)))
    by (repeat constructor).
  assert (Hin : In (hd changed_file
                      (add_editable_region_markers changed_file 0 0 10))
                   (add_editable_region_markers changed_file 0 0 10))
    by (left; reflexivity).
  split; [exact Hc|]. split; [exact Hb|]. split; [exact Hclean|].
  split; [exact Hin|].
  exact (chunk_input_text_round_trip changed_file 0 0 10 _ _ Hc Hb Hclean Hin).
Defined.

Lemma chunk_truthy_chunkable (r : file_record)
    (context_before context_after max_gap : Z) (chunk : file_record) :
  In chunk
    (add_editable_region_markers r context_before context_after max_gap) ->
  truthy (model_input_text chunk) = chunkable r.
Proof.
  intros Hin. destruct (chunkable r) eqn:Hc.
  - destruct (chunk_input_of_region r _ _ _ chunk Hc Hin) as (rs & re & ->).
    destruct (chunkable_before r Hc) as (c & text & Hb).
    rewrite Hb. unfold lines_of. set (before := String c text) in *.
    destruct (join_lines _) as [|x y] eqn:E; [|reflexivity].
    exfalso. apply join_lines_empty in E. destruct E as [E|E].
    + revert E. apply marked_from_nonempty, split_lines_nonempty.
    + apply marked_from_not_blank in E.
      pose proof (join_split_lines before) as Hj.
      rewrite E in Hj. discriminate.
  - rewrite (chunkable_false r _ _ _ Hc) in Hin.
    destruct Hin as [<-|[]]. reflexivity.
Qed.

(** X9.  A chunk has an input text that is not empty exactly when its
    record is one that the chunker cuts into regions: this is the test by
    which [add_markers_to_dataset] tells processed chunks from skipped
    ones. *)
Theorem chunk_input_text_truthy (r : file_record)
    (context_before context_after max_gap : Z) (chunk : file_record) :
  In chunk
    (add_editable_region_markers r context_before context_after max_gap) ->
  truthy (model_input_text chunk) = chunkable r.
Proof. apply chunk_truthy_chunkable. Qed.

Lemma chunk_input_text_truthy_witness :
  In (hd removed_file (add_editable_region_markers removed_file 1 5 10))
     (add_editable_region_markers removed_file 1 5 10) /\
  truthy (model_input_text
            (hd removed_file (add_editable_region_markers removed_file 1 5 10)))
  = true.
Proof.
  assert (Hin : In (hd removed_file
                      (add_editable_region_markers removed_file 1 5 10))
                   (add_editable_region_markers removed_file 1 5 10))
    by (left; reflexivity).
  split; [exact Hin|].
  exact (chunk_input_text_truthy removed_file 1 5 10 _ Hin).
Defined.

(** ** Properties of the loop over the records *)


Section DatasetLoop.

Variables context_before context_after max_gap : Z.








End DatasetLoop.



(** ** Properties of file names and repository lists *)

Section FileNameFacts.

Local Open Scope string_scope.

Variable sep : ascii.

Lemma split_char_nonempty s : split_char sep s <> [].
Proof.
  induction s as [|c s IH]; simpl; [discriminate|].
  destruct (Ascii.eqb c sep); [discriminate|].
  now destruct (split_char sep s).
Qed.

Lemma split_char_one s :
  contains_char sep s = false -> split_char sep s = [s].
Proof.
  induction s as [|c s IH]; [reflexivity|].
  simpl. destruct (Ascii.eqb c sep); [discriminate|].
  simpl. intros H. now rewrite IH.
Qed.

Lemma split_char_two s :
  contains_char sep s = true ->
  exists l l' ls, split_char sep s = l :: l' :: ls.
Proof.
  induction s as [|c s IH]; [discriminate|].
  simpl. destruct (Ascii.eqb c sep); simpl.
  - intros _. pose proof (split_char_nonempty s).
    destruct (split_char sep s) as [|l ls]; [congruence|]. eauto.
  - intros H. destruct (IH H) as (l & l' & ls & ->). eauto.
Qed.

Lemma split_char_app (t1 t2 : string) :
  split_char sep (t1 ++ String sep t2) =
  (split_char sep t1 ++ split_char sep t2)%list.
Proof.
  induction t1 as [|c t1 IH].
  - simpl. now rewrite Ascii.eqb_refl.
  - cbn [append split_char]. rewrite IH.
    pose proof (split_char_nonempty t1) as Hne.
    destruct (Ascii.eqb c sep); [reflexivity|].
    destruct (split_char sep t1); [congruence|reflexivity].
Qed.

(** The last piece of a split holds no separator, and the text is a stem,
    the separator and that piece. *)
Lemma split_char_last s :
  contains_char sep (last (split_char sep s) "") = false /\
  (contains_char sep s = true ->
   exists stem, s = stem ++ String sep (last (split_char sep s) "")).
Proof.
  induction s as [|c s [IH1 IH2]]; [split; [reflexivity|discriminate]|].
  cbn [split_char contains_char].
  destruct (Ascii.eqb c sep) eqn:E.
  - apply Ascii.eqb_eq in E. subst c.
    pose proof (split_char_nonempty s) as Hne.
    destruct (split_char sep s) as [|l ls] eqn:Es; [congruence|].
    change (last ("" :: l :: ls) "") with (last (l :: ls) "").
    split; [exact IH1|]. intros _.
    destruct (contains_char sep s) eqn:Ec.
    + destruct (IH2 eq_refl) as (stem & Hs).
      exists (String sep stem). cbn [append]. f_equal. exact Hs.
    + rewrite (split_char_one s Ec) in Es. injection Es as <- <-.
      exists "". reflexivity.
  - simpl orb. destruct (contains_char sep s) eqn:Ec.
    + destruct (split_char_two s Ec) as (l & l' & ls & Es).
      rewrite Es in *.
      change (last (String c l :: l' :: ls) "") with (last (l' :: ls) "").
      change (last (l :: l' :: ls) "") with (last (l' :: ls) "") in IH1, IH2.
      split; [exact IH1|]. intros _.
      destruct (IH2 eq_refl) as (stem & Hs).
      exists (String c stem). cbn [append]. f_equal. exact Hs.
    + rewrite (split_char_one s Ec).
      change (last [String c s] "") with (String c s).
      split; [|discriminate].
      simpl. now rewrite E, Ec.
Qed.

End FileNameFacts.

Section ExtensionFacts.

Local Open Scope string_scope.

Lemma contains_char_app c a b :
  contains_char c (a ++ b) = contains_char c a || contains_char c b.
Proof.
  induction a as [|x a IH]; [reflexivity|].
  simpl. now rewrite IH, orb_assoc.
Qed.

Lemma last_app_nonempty {A} (l1 l2 : list A) d :
  l2 <> [] -> last (l1 ++ l2) d = last l2 d.
Proof.
  intros Hne. induction l1 as [|x l1 IH]; [reflexivity|].
  simpl. destruct (l1 ++ l2)%list eqn:E; [|exact IH].
  apply app_eq_nil in E. destruct E. congruence.
Qed.

(** The extension of a path that ends with a dot and a piece with no dot
    is that piece. *)
Lemma file_extension_of_suffix stem e :
  contains_char "." e = false ->
  file_extension_of (stem ++ String "." e) = e.
Proof.
  intros He. unfold file_extension_of.
  rewrite contains_char_app. simpl contains_char. rewrite orb_true_r.
  rewrite split_char_app, last_app_nonempty by apply split_char_nonempty.
  now rewrite (split_char_one "." e He).
Qed.

Lemma endswith_spec s suffix :
  endswith s suffix = true <-> exists stem, s = stem ++ suffix.
Proof.
  induction s as [|c s IH]; cbn [endswith].
  - rewrite orb_false_r, String.eqb_eq. split.
    + intros <-. now exists "".
    + intros (stem & H). destruct stem; [|discriminate].
      simpl in H. now subst.
  - rewrite orb_true_iff, IH, String.eqb_eq. split.
    + intros [<-|(stem & ->)].
      * now exists "".
      * now exists (String c stem).
    + intros ([|x stem] & H); simpl in H.
      * left. exact H.
      * injection H as -> ->. right. now exists stem.
Qed.

Lemma text_extensions_dotted : forallb dotted text_extensions = true.
Proof. reflexivity. Qed.

End ExtensionFacts.


(** X12.  The extension of a file path holds no dot; it is empty when the
    path has no dot, and otherwise the path is a stem, a dot and the
    extension. *)
Theorem file_extension_of_path (file_path : string) :
  contains_char "." (file_extension_of file_path) = false /\
  (contains_char "." file_path = false ->
   file_extension_of file_path = EmptyString) /\
  (contains_char "." file_path = true ->
   exists stem,
     file_path = (stem ++ "." ++ file_extension_of file_path)%string).
Proof.
  unfold file_extension_of.
  destruct (split_char_last "." file_path) as [H1 H2].
  destruct (contains_char "." file_path); repeat split; auto; discriminate.
Qed.

Lemma file_extension_of_path_witness :
  contains_char "." "src/data.tar.json" = true /\
  exists stem,
    "src/data.tar.json"%string =
    (stem ++ "." ++ file_extension_of "src/data.tar.json")%string.
Proof.
  split; [reflexivity|].
  apply (proj2 (proj2 (file_extension_of_path "src/data.tar.json"))).
  reflexivity.
Defined.

(** X13.  Whether a file name counts as a text file depends on its end
    only: a name that counts still counts behind any directory. *)
Theorem is_text_file_in_directory (directory filename : string) :
  is_text_file filename = true ->
  is_text_file (directory ++ filename) = true.
Proof.
  unfold is_text_file. rewrite !existsb_exists.
  intros (ext & Hin & Hend). exists ext. split; [exact Hin|].
  apply endswith_spec in Hend. destruct Hend as (stem & ->).
  apply endswith_spec. exists (directory ++ stem)%string.
  now rewrite append_assoc.
Qed.

Lemma is_text_file_in_directory_witness :
  is_text_file "chunker.py" = true /\ is_text_file "src/chunker.py" = true.
Proof.
  assert (H : is_text_file "chunker.py" = true) by reflexivity.
  split; [exact H|].
  exact (is_text_file_in_directory "src/" "chunker.py" H).
Defined.

(** X14.  The extension of a path that counts as a text file is, with its
    dot, one of the extensions of the set. *)
Theorem is_text_file_extension (file_path : string) :
  is_text_file file_path = true ->
  In (String "." (file_extension_of file_path)) text_extensions.
Proof.
  unfold is_text_file. rewrite existsb_exists.
  intros (ext & Hin & Hend).
  pose proof text_extensions_dotted as Hd.
  rewrite forallb_forall in Hd. specialize (Hd ext Hin).
  destruct ext as [|c e]; [discriminate|]. simpl in Hd.
  apply andb_true_iff in Hd. destruct Hd as [Hc He].
  apply Ascii.eqb_eq in Hc. subst c. apply negb_true_iff in He.
  apply endswith_spec in Hend. destruct Hend as (stem & ->).
  now rewrite (file_extension_of_suffix stem e He).
Qed.

Lemma is_text_file_extension_witness :
  is_text_file "src/archive.tar.json" = true /\
  In (String "." (file_extension_of "src/archive.tar.json")) text_extensions.
Proof.
  assert (H : is_text_file "src/archive.tar.json" = true) by reflexivity.
  split; [exact H|].
  exact (is_text_file_extension _ H).
Defined.

Section StripFacts.

Local Open Scope string_scope.

Lemma rstrip_cons c r :
  rstrip (String c r) =
  match rstrip r with
  | "" => if is_space c then "" else String c ""
  | String x y => String c (String x y)
  end.
Proof. reflexivity. Qed.

Lemma rstrip_idempotent s : rstrip (rstrip s) = rstrip s.
Proof.
  induction s as [|c s IH]; [reflexivity|].
  rewrite rstrip_cons. destruct (rstrip s) as [|x r'] eqn:E.
  - destruct (is_space c) eqn:Ec; [reflexivity|].
    rewrite rstrip_cons. cbn [rstrip]. now rewrite Ec.
  - rewrite rstrip_cons, IH. reflexivity.
Qed.

Lemma lstrip_head s :
  lstrip s = "" \/ exists c r, lstrip s = String c r /\ is_space c = false.
Proof.
  induction s as [|c s IH]; [now left|].
  cbn [lstrip]. destruct (is_space c) eqn:Ec; [exact IH|].
  right. eauto.
Qed.

Lemma rstrip_head c r :
  is_space c = false -> exists r', rstrip (String c r) = String c r'.
Proof.
  intros Hc. rewrite rstrip_cons. destruct (rstrip r); [rewrite Hc|]; eauto.
Qed.

Lemma strip_lstrip s : lstrip (strip s) = strip s.
Proof.
  unfold strip. destruct (lstrip_head s) as [->|(c & r & -> & Hc)];
    [reflexivity|].
  destruct (rstrip_head c r Hc) as (r' & ->). cbn [lstrip]. now rewrite Hc.
Qed.

Lemma strip_rstrip s : rstrip (strip s) = strip s.
Proof. unfold strip. apply rstrip_idempotent. Qed.

Lemma strip_idempotent s : strip (strip s) = strip s.
Proof.
  unfold strip at 1. rewrite strip_lstrip. apply strip_rstrip.
Qed.

End StripFacts.

(** X15.  A repository list that is read from a file holds only names that
    are not empty and have no white space at either end, each the stripped
    text of a line of the file that does not start with [#]; an input that
    is not one path of an existing file is returned as it is. *)
Theorem load_repositories_names (isfile : string -> bool)
    (file_lines : string -> list string) (repos_input : list string) :
  (forall path name,
     repos_input = [path] -> isfile path = true ->
     In name (load_repositories isfile file_lines repos_input) ->
     name <> EmptyString /\ lstrip name = name /\ rstrip name = name /\
     exists line,
       In line (file_lines path) /\ name = strip line /\
       startswith line "#" = false) /\
  ((forall path, repos_input = [path] -> isfile path = false) ->
   load_repositories isfile file_lines repos_input = repos_input).
Proof.
  split.
  - intros path name -> Hfile Hin. simpl in Hin. rewrite Hfile in Hin.
    apply in_map_iff in Hin. destruct Hin as (line & <- & Hline).
    apply filter_In in Hline. destruct Hline as [Hline Hkeep].
    apply andb_true_iff in Hkeep. destruct Hkeep as [Hne Hc].
    apply negb_true_iff in Hc.
    split; [intros E; rewrite E in Hne; discriminate|].
    split; [apply strip_lstrip|]. split; [apply strip_rstrip|].
    exists line. auto.
  - intros H. destruct repos_input as [|path [|p2 rest]]; try reflexivity.
    simpl. now rewrite (H path eq_refl).
Qed.

Lemma load_repositories_names_witness :
  let file_lines := fun _ : string =>
    ["# repositories" ++ String newline ""; "  psf/requests  " ++ String newline "";
     String newline ""]%string in
  ["repos.txt"%string] = ["repos.txt"%string] /\
  (fun _ : string => true) "repos.txt"%string = true /\
  In "psf/requests"%string
     (load_repositories (fun _ => true) file_lines ["repos.txt"%string]) /\
  "psf/requests"%string <> EmptyString.
Proof.
  intros file_lines.
  assert (Hin : In "psf/requests"%string
                  (load_repositories (fun _ => true) file_lines
                     ["repos.txt"%string]))
    by (left; reflexivity).
  split; [reflexivity|]. split; [reflexivity|]. split; [exact Hin|].
  exact (proj1 (proj1 (load_repositories_names (fun _ => true) file_lines
                         ["repos.txt"%string])
                  "repos.txt"%string "psf/requests"%string
                  eq_refl eq_refl Hin)).
Defined.

(** ** Properties of the extractors *)

Section PyDrillerFacts.

Variable args : extraction_args.

Lemma pydriller_file_step_alone commit n records im :
  pydriller_file_step commit n records im =
  records ++ pydriller_file_step commit n [] im.
Proof.
  unfold pydriller_file_step. destruct im as [i mf].
  destruct (_ || _); [now rewrite app_nil_r|reflexivity].
Qed.

Lemma pydriller_file_loop commit n l : forall records,
  fold_left (pydriller_file_step commit n) l records =
  records ++ flat_map (pydriller_file_step commit n []) l.
Proof.
  induction l as [|im l IH]; intros records; simpl.
  - now rewrite app_nil_r.
  - rewrite IH, (pydriller_file_step_alone commit n records im), <- app_assoc.
    reflexivity.
Qed.

(** The traversal gives the records of the accepted commits, commit after
    commit, up to the commit at which the limit is reached. *)
Lemma traverse_commits_closed commits : forall processed records,
  traverse_commits args commits processed records =
  records ++
  flat_map commit_records
    (within_limit (max_commits args) processed
       (filter (accepted_commit args) commits)).
Proof.
  unfold within_limit.
  induction commits as [|commit rest IH]; intros processed records.
  - simpl. destruct (truthy_int _); [rewrite firstn_nil|];
      simpl; now rewrite app_nil_r.
  - cbn [traverse_commits filter].
    destruct (1 <? Z.of_nat (length (PyDriller.parents commit))) eqn:E1.
    { replace (accepted_commit args commit) with false
        by (unfold accepted_commit; now rewrite E1).
      apply IH. }
    destruct ((Z.of_nat (length (PyDriller.modified_files commit))
               <? min_files args)
              || (max_files args
                  <? Z.of_nat (length (PyDriller.modified_files commit))))
      eqn:E2.
    { replace (accepted_commit args commit) with false
        by (unfold accepted_commit; now rewrite E1, E2).
      apply IH. }
    replace (accepted_commit args commit) with true
      by (unfold accepted_commit; now rewrite E1, E2).
    rewrite pydriller_file_loop. fold (commit_records commit).
    destruct (truthy_int (max_commits args)) eqn:Et.
    + destruct (max_commits args) as [limit|]; [|discriminate].
      cbn [andb or_zero] in *.
      destruct (limit <=? processed + 1) eqn:El.
      * apply Z.leb_le in El.
        replace (Z.to_nat (Z.max 1 (limit - processed))) with 1%nat by lia.
        cbn [firstn flat_map]. now rewrite app_nil_r.
      * apply Z.leb_gt in El. rewrite IH, <- app_assoc.
        replace (Z.to_nat (Z.max 1 (limit - processed)))
          with (S (Z.to_nat (Z.max 1 (limit - (processed + 1))))) by lia.
        reflexivity.
    + cbn [andb]. rewrite IH, <- app_assoc. reflexivity.
Qed.

Lemma enumerate_In {A} (l : list A) : forall (k i : Z) (x : A),
  In (i, x) (enumerate k l) ->
  k <= i < k + Z.of_nat (length l) /\ nth_error l (Z.to_nat (i - k)) = Some x.
Proof.
  induction l as [|y l IH]; intros k i x; simpl; [intros []|].
  intros [H|H].
  - injection H as <- <-. rewrite Z.sub_diag. simpl. split; [lia|reflexivity].
  - apply IH in H. destruct H as [Hr Hn]. split; [lia|].
    replace (Z.to_nat (i - k)) with (S (Z.to_nat (i - (k + 1)))) by lia.
    exact Hn.
Qed.

Lemma within_limit_In {A} limit processed (l : list A) x :
  In x (within_limit limit processed l) -> In x l.
Proof.
  unfold within_limit. destruct (truthy_int limit); [|auto].
  intros H. rewrite <- (firstn_skipn (Z.to_nat (Z.max 1 (or_zero limit - processed))) l).
  apply in_or_app. now left.
Qed.

End PyDrillerFacts.

(** X16.  The local extractor gives the records of the commits that are
    not merges and have a number of modified files within the bounds, in
    the order of the traversal; with a limit that is not 0 only the first
    [max(1, limit)] of these commits are looked at, and nothing after
    them. *)
Theorem process_repository_with_pydriller_commits
    (commits : list PyDriller.Commit) (args : extraction_args) :
  process_repository_with_pydriller commits args =
  flat_map commit_records
    (within_limit (max_commits args) 0
       (filter (accepted_commit args) commits)).
Proof.
  unfold process_repository_with_pydriller.
  now rewrite traverse_commits_closed.
Qed.

(** X17.  Every record of the local extractor is the record of one
    modified file of one commit of the traversal.  The commit is not a
    merge, and its number of modified files is the record's
    [total_files_in_commit] and lies within the bounds; the record's
    [sequence_order] is the place, counted from 1, of the file among the
    modified files of that commit, and the file has the name of a text
    file.  The record has the hash of the commit, its first eight
    characters, the stripped message and the author's name; its path is the
    file's new path, or else its old path, or else its name, with the
    extension of that path; its change type is the one of the file; its
    line counts are those of the file and their sum; and its patch and
    contents are the file's diff and source codes, the empty string
    standing for one that is [None], so that none of the three is
    [None]. *)
Theorem process_repository_with_pydriller_records
    (commits : list PyDriller.Commit) (args : extraction_args)
    (record : file_level_data) :
  In record (process_repository_with_pydriller commits args) ->
  exists commit modified_file,
    In commit commits /\
    (length (PyDriller.parents commit) <= 1)%nat /\
    total_files_in_commit record =
      Z.of_nat (length (PyDriller.modified_files commit)) /\
    min_files args <= total_files_in_commit record <= max_files args /\
    1 <= sequence_order record <= total_files_in_commit record /\
    nth_error (PyDriller.modified_files commit)
              (Z.to_nat (sequence_order record - 1)) = Some modified_file /\
    is_text_file (PyDriller.filename modified_file) = true /\
    commit_sha record = PyDriller.hash commit /\
    commit_short_sha record = substring 0 8 (PyDriller.hash commit) /\
    commit_message record = strip (PyDriller.msg commit) /\
    commit_author record = PyDriller.author_name commit /\
    file_path record =
      or_else (PyDriller.new_path modified_file)
        (or_else (PyDriller.old_path modified_file)
           (PyDriller.filename modified_file)) /\
    file_extension record = file_extension_of (file_path record) /\
    change_type record =
      change_type_of (PyDriller.change_type modified_file) /\
    lines_added record = PyDriller.added_lines modified_file /\
    lines_deleted record = PyDriller.deleted_lines modified_file /\
    total_changes record =
      PyDriller.added_lines modified_file +
      PyDriller.deleted_lines modified_file /\
    contents record =
      file_level_record
        (Some (or_empty (PyDriller.diff modified_file)))
        (Some (or_empty (PyDriller.source_code_before modified_file)))
        (Some (or_empty (PyDriller.source_code modified_file))) /\
    patch (contents record) <> None /\
    before_content (contents record) <> None /\
    after_content (contents record) <> None.
Proof.
  rewrite process_repository_with_pydriller_commits.
  intros Hin. apply in_flat_map in Hin. destruct Hin as (commit & Hc & Hr).
  apply within_limit_In, filter_In in Hc. destruct Hc as [Hc Hacc].
  unfold accepted_commit in Hacc. apply andb_true_iff in Hacc.
  destruct Hacc as [Hpar Hnum]. apply negb_true_iff in Hpar, Hnum.
  apply Z.ltb_ge in Hpar. apply orb_false_iff in Hnum.
  destruct Hnum as [Hmin Hmax]. apply Z.ltb_ge in Hmin, Hmax.
  unfold commit_records in Hr. apply in_flat_map in Hr.
  destruct Hr as ([i mf] & Him & Hr). apply enumerate_In in Him.
  destruct Him as [Hi Hnth]. unfold pydriller_file_step in Hr.
  destruct (negb (truthy (Some (PyDriller.filename mf))) ||
            negb (is_text_file (PyDriller.filename mf))) eqn:E; [destruct Hr|].
  apply orb_false_iff in E. destruct E as [_ Htext].
  apply negb_false_iff in Htext.
  destruct Hr as [<-|[]]. exists commit, mf. simpl.
  repeat split; try assumption; try lia; discriminate.
Qed.

(** A commit of two files, one of them a text file. *)
Lemma process_repository_with_pydriller_records_witness :
  let text_file :=
    {| PyDriller.filename := "chunker.py";
       PyDriller.change_type := PyDriller.MODIFY;
       PyDriller.source_code_before := Some "a"%string;
       PyDriller.source_code := Some "b"%string;
       PyDriller.diff := Some "@@ -1 +1 @@"%string;
       PyDriller.new_path := Some "src/chunker.py"%string;
       PyDriller.old_path := Some "src/chunker.py"%string;
       PyDriller.added_lines := 1;
       PyDriller.deleted_lines := 1 |} in
  let image :=
    {| PyDriller.filename := "logo.png";
       PyDriller.change_type := PyDriller.ADD;
       PyDriller.source_code_before := None;
       PyDriller.source_code := None;
       PyDriller.diff := None;
       PyDriller.new_path := Some "logo.png"%string;
       PyDriller.old_path := None;
       PyDriller.added_lines := 0;
       PyDriller.deleted_lines := 0 |} in
  let commit :=
    {| PyDriller.hash := "0123456789abcdef";
       PyDriller.msg := " fix the chunker ";
       PyDriller.author_name := "a";
       PyDriller.parents := ["fedcba9876543210"%string];
       PyDriller.modified_files := [image; text_file] |} in
  let args := {| min_files := 2; max_files := 8; max_commits := None |} in
  let record := pydriller_record commit 2 2 text_file in
  In record (process_repository_with_pydriller [commit] args) /\
  exists commit' modified_file,
    In commit' [commit] /\
    nth_error (PyDriller.modified_files commit')
              (Z.to_nat (sequence_order record - 1)) = Some modified_file /\
    commit_sha record = PyDriller.hash commit' /\
    file_path record =
      or_else (PyDriller.new_path modified_file)
        (or_else (PyDriller.old_path modified_file)
           (PyDriller.filename modified_file)) /\
    contents record =
      file_level_record
        (Some (or_empty (PyDriller.diff modified_file)))
        (Some (or_empty (PyDriller.source_code_before modified_file)))
        (Some (or_empty (PyDriller.source_code modified_file))).
Proof.
  intros text_file image commit args record.
  assert (Hin : In record (process_repository_with_pydriller [commit] args))
    by (left; reflexivity).
  split; [exact Hin|].
  destruct (process_repository_with_pydriller_records [commit] args record Hin)
    as (c & mf & Hc & _ & _ & _ & _ & Hn & _ & Hsha & _ & _ & _ & Hpath & _ & _
        & _ & _ & _ & Hcontents & _).
  exists c, mf. repeat split; assumption.
Defined.

Section GitHubFacts.

Local Open Scope string_scope.

Variables min_bound max_bound : Z.

Lemma file_details_loop l : forall info,
  fold_left
    (fun info file_change =>
       {| sha := sha info;
          short_sha := short_sha info;
          message := message info;
          author := author info;
          files_changed := files_changed info;
          files := files info;
          file_details := file_details info ++ [file_info_of file_change] |})
    l info =
  {| sha := sha info;
     short_sha := short_sha info;
     message := message info;
     author := author info;
     files_changed := files_changed info;
     files := files info;
     file_details := file_details info ++ map file_info_of l |}.
Proof.
  induction l as [|x l IH]; intros info.
  - destruct info. simpl. now rewrite app_nil_r.
  - cbn [fold_left]. rewrite IH. simpl. now rewrite <- app_assoc.
Qed.

Lemma filter_commit_step_closed filtered commit :
  filter_commit_step min_bound max_bound filtered commit =
  (filtered ++
   if in_bounds min_bound max_bound commit then [commit_info_of commit] else [])%list.
Proof.
  unfold filter_commit_step, in_bounds.
  destruct (_ && _); [|now rewrite app_nil_r].
  now rewrite file_details_loop.
Qed.

Lemma filter_commits_loop l : forall filtered,
  fold_left (filter_commit_step min_bound max_bound) l filtered =
  (filtered ++ map commit_info_of (filter (in_bounds min_bound max_bound) l))%list.
Proof.
  induction l as [|c l IH]; intros filtered; simpl.
  - now rewrite app_nil_r.
  - rewrite IH, filter_commit_step_closed.
    destruct (in_bounds min_bound max_bound c); simpl;
      now rewrite <- app_assoc.
Qed.

Lemma short_sha_of_prefix s n :
  String.prefix (substring 0 n s) s = true /\
  (String.length (substring 0 n s) <= n)%nat.
Proof.
  revert n. induction s as [|c s IH]; intros n.
  - destruct n; simpl; split; auto; lia.
  - destruct n as [|n]; [simpl; split; auto; lia|].
    cbn [substring String.prefix String.length].
    destruct (IH n) as [Hp Hl]. destruct (ascii_dec c c); [|congruence].
    split; [exact Hp|lia].
Qed.

End GitHubFacts.

(** X18.  [filter_commits] keeps, in their order, exactly the commits whose
    number of files lies within the bounds; in the information of a kept
    commit, [files_changed] is within the bounds and is the number of its
    file details and of its file names, the file names are those of the
    details, the message has no white space at either end, and the short
    sha is the start of the sha, eight characters at most. *)
Theorem filter_commits_kept (all_commits : list GitHub.Commit)
    (min_files max_files : Z) :
  map sha (filter_commits all_commits min_files max_files) =
  map GitHub.sha (filter (in_bounds min_files max_files) all_commits) /\
  forall info, In info (filter_commits all_commits min_files max_files) ->
    min_files <= files_changed info <= max_files /\
    files_changed info = Z.of_nat (length (file_details info)) /\
    files info = map filename (file_details info) /\
    strip (message info) = message info /\
    String.prefix (short_sha info) (sha info) = true /\
    (String.length (short_sha info) <= 8)%nat.
Proof.
  unfold filter_commits. rewrite filter_commits_loop. cbn [app]. split.
  - rewrite map_map. reflexivity.
  - intros info Hin. apply in_map_iff in Hin.
    destruct Hin as (commit & <- & Hc). apply filter_In in Hc.
    destruct Hc as [_ Hb]. unfold in_bounds in Hb.
    apply andb_true_iff in Hb. destruct Hb as [Hmin Hmax].
    apply Z.leb_le in Hmin, Hmax. cbn.
    destruct (short_sha_of_prefix (GitHub.sha commit) 8) as [Hp Hl].
    repeat split; try assumption.
    + now rewrite length_map.
    + now rewrite map_map.
    + apply strip_idempotent.
Qed.

Lemma filter_commits_kept_witness :
  In (commit_info_of adding_commit) (filter_commits [adding_commit] 2 8) /\
  2 <= files_changed (commit_info_of adding_commit) <= 8.
Proof.
  assert (Hin : In (commit_info_of adding_commit)
                  (filter_commits [adding_commit] 2 8))
    by (left; reflexivity).
  split; [exact Hin|].
  exact (proj1 (proj2 (filter_commits_kept [adding_commit] 2 8) _ Hin)).
Defined.

Section ExtractFacts.

Variable get_commit : string -> GitHub.Commit.
Variable get_file_content : string -> string -> option string.

(** The records of the files of one commit. *)
Let records_of (commit : commit_info) : list file_level_data :=
  map (fun id => github_record get_file_content commit
                   (get_commit (sha commit)) (fst id) (snd id))
      (enumerate 0 (file_details commit)).

Lemma extract_loop l : forall records,
  fold_left
    (fun file_level_records commit =>
       let commit_obj := get_commit (sha commit) in
       fold_left
         (fun records (id : Z * file_info) =>
            records ++
            [github_record get_file_content commit commit_obj (fst id) (snd id)])
         (enumerate 0 (file_details commit)) file_level_records)
    l records =
  records ++ flat_map records_of l.
Proof.
  induction l as [|c l IH]; intros records; simpl.
  - now rewrite app_nil_r.
  - rewrite IH, append_loop, <- app_assoc. reflexivity.
Qed.

Lemma extract_file_level_data_closed filtered_commits :
  extract_file_level_data get_commit get_file_content filtered_commits =
  flat_map records_of filtered_commits.
Proof.
  unfold extract_file_level_data. now rewrite extract_loop.
Qed.

Lemma extract_record_In filtered_commits record :
  In record
    (extract_file_level_data get_commit get_file_content filtered_commits) ->
  exists commit i detail,
    In commit filtered_commits /\
    In (i, detail) (enumerate 0 (file_details commit)) /\
    record = github_record get_file_content commit
               (get_commit (sha commit)) i detail.
Proof.
  rewrite extract_file_level_data_closed. intros Hin.
  apply in_flat_map in Hin. destruct Hin as (commit & Hc & Hr).
  unfold records_of in Hr. apply in_map_iff in Hr.
  destruct Hr as ([i detail] & <- & Hid). exists commit, i, detail. auto.
Qed.


End ExtractFacts.



(** X20.  A file that its commit adds is never cut into regions by the
    chunker: its record from [extract_file_level_data] has no content
    before the change, and [add_editable_region_markers] gives it the
    single chunk 0 of 1 with neither input nor target text. *)
Theorem extract_file_level_data_added
    (get_commit : string -> GitHub.Commit)
    (get_file_content : string -> string -> option string)
    (filtered_commits : list commit_info) (record : file_level_data)
    (context_before context_after max_gap : Z) :
  In record
    (extract_file_level_data get_commit get_file_content filtered_commits) ->
  change_type record = "added"%string ->
  before_content (contents record) = None /\
  add_editable_region_markers (contents record)
    context_before context_after max_gap =
  [not_chunkable (contents record)].
Proof.
  intros Hin Hadded. apply extract_record_In in Hin.
  destruct Hin as (commit & i & detail & _ & _ & ->).
  cbn in Hadded. cbn [contents github_record]. rewrite Hadded.
  cbn [String.eqb negb file_level_record before_content].
  split; [reflexivity|].
  unfold add_editable_region_markers. cbn [before_content truthy negb].
  now rewrite orb_true_r.
Qed.

(** X21.  Run on the commits that [filter_commits] keeps,
    [extract_file_level_data] gives records whose [total_files_in_commit]
    lies within the bounds of the filter. *)
Theorem extract_filtered_commits_bounds
    (get_commit : string -> GitHub.Commit)
    (get_file_content : string -> string -> option string)
    (all_commits : list GitHub.Commit) (min_files max_files : Z)
    (record : file_level_data) :
  In record
    (extract_file_level_data get_commit get_file_content
       (filter_commits all_commits min_files max_files)) ->
  min_files <= total_files_in_commit record <= max_files /\
  1 <= sequence_order record <= total_files_in_commit record.
Proof.
  intros Hin. apply extract_record_In in Hin.
  destruct Hin as (commit & i & detail & Hc & Hid & ->).
  apply enumerate_In in Hid. destruct Hid as [Hi _].
  unfold filter_commits in Hc. rewrite filter_commits_loop in Hc.
  cbn [app] in Hc. apply in_map_iff in Hc.
  destruct Hc as (c & <- & Hf). apply filter_In in Hf.
  destruct Hf as [_ Hb]. unfold in_bounds in Hb.
  apply andb_true_iff in Hb. destruct Hb as [Hmin Hmax].
  apply Z.leb_le in Hmin, Hmax. cbn in *. rewrite length_map in *. lia.
Qed.

Lemma extract_file_level_data_added_witness :
  In added_record
     (extract_file_level_data adding_repository_commit
        adding_repository_content (filter_commits [adding_commit] 2 8)) /\
  change_type added_record = "added"%string /\
  add_editable_region_markers (contents added_record) 1 5 10 =
  [not_chunkable (contents added_record)].
Proof.
  assert (Hin : In added_record
                  (extract_file_level_data adding_repository_commit
                     adding_repository_content
                     (filter_commits [adding_commit] 2 8)))
    by (left; reflexivity).
  assert (Hadded : change_type added_record = "added"%string) by reflexivity.
  split; [exact Hin|]. split; [exact Hadded|].
  exact (proj2 (extract_file_level_data_added adding_repository_commit
                  adding_repository_content _ added_record 1 5 10 Hin Hadded)).
Defined.

Lemma extract_filtered_commits_bounds_witness :
  In added_record
     (extract_file_level_data adding_repository_commit
        adding_repository_content (filter_commits [adding_commit] 2 8)) /\
  2 <= total_files_in_commit added_record <= 8.
Proof.
  assert (Hin : In added_record
                  (extract_file_level_data adding_repository_commit
                     adding_repository_content
                     (filter_commits [adding_commit] 2 8)))
    by (left; reflexivity).
  split; [exact Hin|].
  exact (proj1 (extract_filtered_commits_bounds adding_repository_commit
                  adding_repository_content [adding_commit] 2 8
                  added_record Hin)).
Defined.
